(** * Batched autoregressive sequence generation ([outlines.text.generate.sequence])

    A shallow embedding of [vectorized_random_choice] and of the class
    [Sequence] ([step], [expand_attention_mask], [__call__]) together with the
    properties of the sampler and of the generation loop.

    Conventions of the embedding:
    - a tensor is its shape and its row-major data, as the tensor runtime
      stores a contiguous tensor; the two dimensional integer tensors the
      loop works on ([token_ids], [attention_mask]) are kept as lists of rows;
    - probabilities and logits are floating point numbers, kept as the
      rationals they stand for ([Q]); a sum of two of them is rounded to the
      float format of the tensor, [rnd], a parameter of the development
      (exact arithmetic is the format that rounds nothing, binary64 the one
      that rounds to 53 bits, nearest even; both have the laws of rounding
      the properties rest on); the exponent range is not bounded, so
      infinities, NaN and underflow are outside the model;
    - a [torch.Generator] is a state with a function drawing one uniform
      number of [0,1) and giving the next state;
    - an exception is a [Raise] in the [result] monad; the [while True] loop
      is iterated with fuel, [None] meaning that the fuel ran out. *)

From Stdlib Require Import QArith Qround Qabs Qpower Lqa ZArith Lia String.
From stdpp Require Import base list.

Local Open Scope nat_scope.

(** ** Exceptions and the error monad *)

Inductive exn : Type :=
| AssertionError
| IndexError
| RuntimeError
| NotImplementedError.

Inductive result (A : Type) : Type :=
| Ok (a : A)
| Raise (e : exn).

Arguments Ok {A} a.
Arguments Raise {A} e.

Definition bind {A B : Type} (m : result A) (k : A -> result B) : result B :=
  match m with
  | Ok a => k a
  | Raise e => Raise e
  end.

Notation "x <- m ;; k" := (bind m (fun x => k))
  (at level 100, m at next level, right associativity).

(** Two outcomes of the same kind, the values related by [R]. *)
Definition result_rel {A : Type} (R : A -> A -> Prop) (r1 r2 : result A) : Prop :=
  match r1, r2 with
  | Ok a, Ok b => R a b
  | Raise e1, Raise e2 => e1 = e2
  | _, _ => False
  end.

Fixpoint mapM {A B : Type} (f : A -> result B) (l : list A) : result (list B) :=
  match l with
  | [] => Ok []
  | a :: t => b <- f a ;; bs <- mapM f t ;; Ok (b :: bs)
  end.

(** ** Tensors *)

Record tensor (A : Type) : Type := mkTensor { shape : list nat; data : list A }.

Arguments mkTensor {A} shape data.
Arguments shape {A} t.
Arguments data {A} t.

(** [math.prod] of a shape. *)
Definition numel (s : list nat) : nat := fold_right Nat.mul 1 s.

Definition tensor_wf {A : Type} (t : tensor A) : Prop :=
  length (data t) = numel (shape t).

(** [shape[:-1]] and [shape[-1]]; a zero dimensional tensor is treated by the
    reductions along the last axis as one row of one element. *)
Definition batch_shape {A : Type} (t : tensor A) : list nat := removelast (shape t).
Definition last_dim {A : Type} (t : tensor A) : nat := List.last (shape t) 1.

(** Row [i] of row-major data with [c] columns, and the first [n] rows. *)
Definition row_at {A : Type} (c : nat) (d : list A) (i : nat) : list A :=
  take c (drop (i * c) d).

Definition rows_of {A : Type} (n c : nat) (d : list A) : list (list A) :=
  map (row_at c d) (seq 0 n).

(** The view of a tensor as a matrix: leading axes flattened, last axis kept. *)
Definition matrix_rows {A : Type} (t : tensor A) : list (list A) :=
  rows_of (numel (batch_shape t)) (last_dim t) (data t).

(** [t.squeeze(0)] *)
Definition squeeze0 {A : Type} (t : tensor A) : tensor A :=
  match shape t with
  | 1 :: s => mkTensor s (data t)
  | _ => t
  end.

(** [t.unsqueeze(-1)] *)
Definition unsqueeze_last {A : Type} (t : tensor A) : tensor A :=
  mkTensor (shape t ++ [1]) (data t).

(** [torch.broadcast_to(t, (n,) + t.shape)] *)
Definition broadcast_to {A : Type} (t : tensor A) (n : nat) : tensor A :=
  mkTensor (n :: shape t) (concat (replicate n (data t))).

(** [t.reshape(s)]: the element count must be the one of [s]. *)
Definition reshape {A : Type} (t : tensor A) (s : list nat) : result (tensor A) :=
  if length (data t) =? numel s then Ok (mkTensor s (data t)) else Raise RuntimeError.

(** ** Boolean mask indexing on the first axis *)

Definition count_true (mask : list bool) : nat :=
  length (List.filter (fun b : bool => b) mask).

Fixpoint select {A : Type} (mask : list bool) (x : list A) : list A :=
  match mask, x with
  | b :: m, a :: t => if b then a :: select m t else select m t
  | _, _ => []
  end.

(** [x[mask]]: the mask must have one flag per row. *)
Definition mask_select {A : Type} (x : list A) (mask : list bool) : result (list A) :=
  if length mask =? length x then Ok (select mask x) else Raise IndexError.

Fixpoint scatter {A : Type} (mask : list bool) (x v : list A) : list A :=
  match mask, x with
  | b :: m, a :: t =>
      if b then
        match v with
        | w :: v' => w :: scatter m t v'
        | [] => a :: scatter m t []
        end
      else a :: scatter m t v
  | _, _ => x
  end.

(** [x[mask] = v]: [v] has one row per selected row, or one row that is
    broadcast to all of them. *)
Definition index_put {A : Type} (x : list A) (mask : list bool) (v : list A)
  : result (list A) :=
  if length mask =? length x then
    if length v =? count_true mask then Ok (scatter mask x v)
    else match v with
         | [w] => Ok (scatter mask x (replicate (count_true mask) w))
         | _ => Raise RuntimeError
         end
  else Raise IndexError.

(** [torch.concatenate([a, b], axis=-1)] on two matrices. *)
Definition concat_cols {A : Type} (a b : list (list A)) : result (list (list A)) :=
  if length a =? length b then Ok (zip_with app a b) else Raise RuntimeError.

(** [m.shape[-1]] of a matrix kept as its rows. *)
Definition ncols {A : Type} (m : list (list A)) : nat :=
  match m with
  | [] => 0
  | r :: _ => length r
  end.

(** ** The categorical sampler *)

(** The float format of the probability tensors: [rnd] rounds the exact
    result of an operation to the format. *)
Class FloatFormat : Type := { rnd : Q -> Q }.

(** What rounding to nearest does in every IEEE format: it keeps the order,
    it leaves a number of the format as it is, and [0] and [1] are numbers
    of the format. *)
Class RoundingLaws `{FloatFormat} : Prop := {
  rnd_monotone : forall x y, (x <= y)%Q -> (rnd x <= rnd y)%Q;
  rnd_idempotent : forall x, (rnd (rnd x) == rnd x)%Q;
  rnd_zero : (rnd 0 == 0)%Q;
  rnd_one : (rnd 1 == 1)%Q
}.

(** The floating point addition of the format. *)
Definition fadd `{FloatFormat} (x y : Q) : Q := rnd (x + y).

(** [row.cumsum()]: the running sum, each addition rounded. *)
Fixpoint cumsum_from `{FloatFormat} (acc : Q) (l : list Q) : list Q :=
  match l with
  | [] => []
  | x :: t => fadd acc x :: cumsum_from (fadd acc x) t
  end.

Definition cumsum `{FloatFormat} (l : list Q) : list Q := cumsum_from 0%Q l.

(** The format that rounds nothing. *)
Definition exact_rnd (x : Q) : Q := x.

(** Rounding a number to the nearest integer, ties to the even one. *)
Definition round_half_even (t : Q) : Z :=
  let q := Qfloor t in
  match (t - inject_Z q ?= 1 # 2)%Q with
  | Lt => q
  | Gt => (q + 1)%Z
  | Eq => if Z.even q then q else (q + 1)%Z
  end.

(** The exponent [e] of a positive number [a] in a format of [prec]
    significant bits: [2 ^ (prec - 1) <= a / 2 ^ e < 2 ^ prec]. The binary
    logarithms of numerator and denominator give it up to one. *)
Definition binade (prec : Z) (a : Q) : Z :=
  let e0 := (Z.log2 (Qnum a) - Z.log2 (Zpos (Qden a)) - prec + 1)%Z in
  if Qle_bool (2 ^ (prec - 1)) (a / 2 ^ e0)%Q then e0 else (e0 - 1)%Z.

(** Rounding to [prec] significant bits, to nearest, ties to the even
    significand, with no bound on the exponent: the significand of
    [|x| = m * 2 ^ e], with [e] the exponent of [|x|], is rounded to an
    integer. *)
Definition round_nearest_even (prec : Z) (x : Q) : Q :=
  if (Qnum x =? 0)%Z then 0%Q
  else
    let e := binade prec (Qabs x) in
    Qred (inject_Z (Z.sgn (Qnum x) * round_half_even (Qabs x / 2 ^ e)) * 2 ^ e)%Q.

(** IEEE binary64: 53 significant bits. *)
Definition binary64 : FloatFormat := {| rnd := round_nearest_even 53 |}.

Definition Qltb (x y : Q) : bool := (Qnum x * QDen y <? Qnum y * QDen x)%Z.

(** [(cumsum_row < u).sum()] *)
Definition count_below (cs : list Q) (u : Q) : nat :=
  length (List.filter (fun c => Qltb c u) cs).

(** The counting rule in the words of the specification: the cumulative
    sum at position [j] is the sum of the first [j + 1] entries, added from
    the left in the arithmetic of the format, and the index is the number of
    positions whose cumulative sum is strictly below the draw. *)
Definition spec_cumulative_sum `{FloatFormat} (row : list Q) (j : nat) : Q :=
  fold_left (fun a x => rnd (a + x)) (take (S j) row) 0%Q.

Definition spec_cumulative_sums `{FloatFormat} (row : list Q) : list Q :=
  map (spec_cumulative_sum row) (seq 0 (length row)).

Definition spec_index `{FloatFormat} (row : list Q) (u : Q) : Z :=
  Z.of_nat
    (length (List.filter (fun c => if Qlt_le_dec c u then true else false)
                         (spec_cumulative_sums row))).

(** A categorical distribution: entries non negative, sum equal to one. *)
Definition Qsum (l : list Q) : Q := fold_right Qplus 0%Q l.

Definition normalizedb (r : list Q) : bool :=
  forallb (fun x => Qle_bool 0 x) r && Qeq_bool (Qsum r) 1.

Definition normalized_tensor (p : tensor Q) : bool :=
  (length (data p) =? numel (shape p)) && forallb normalizedb (matrix_rows p).

(** A [torch.Generator]: its state, seeding, and one uniform draw of [0,1). *)
Class Generator (G : Type) : Type := {
  manual_seed : Z -> G;
  uniform : G -> Q * G;
  uniform_range : forall g, (0 <= fst (uniform g) /\ fst (uniform g) < 1)%Q
}.

Section Sampler.
Context {G : Type} `{Generator G} `{FloatFormat}.

(** The first [k] numbers of the stream of [g], and the generator after them. *)
Fixpoint rand_draws (g : G) (k : nat) : list Q * G :=
  match k with
  | 0 => ([], g)
  | S k' =>
      let (u, g1) := uniform g in
      let (us, g2) := rand_draws g1 k' in
      (u :: us, g2)
  end.

(** [torch.rand(size, generator=g)] *)
Definition torch_rand (g : G) (size : list nat) : tensor Q * G :=
  let (d, g') := rand_draws g (numel size) in (mkTensor size d, g').

(** [vectorized_random_choice(rng, p, samples)]: [cumsum] has shape
    [(1,) + p.shape], [rand] has shape [(samples,) + p.shape[:-1] + (1,)];
    the comparison broadcasts both to [(samples,) + p.shape] and the sum
    removes the last axis. *)
Definition vectorized_random_choice (rng : G) (p : tensor Q) (samples : nat)
  : tensor Z * G :=
  let cumsum_rows := map cumsum (matrix_rows p) in
  let (rand, rng') := torch_rand rng (samples :: batch_shape p ++ [1]) in
  let idx :=
    flat_map (fun draws => zip_with count_below cumsum_rows draws)
             (rows_of samples (numel (batch_shape p)) (data rand)) in
  (mkTensor (samples :: batch_shape p) (map Z.of_nat idx), rng').

(** Two generator states that give the same numbers, draw after draw. *)
Definition same_stream (g1 g2 : G) : Prop :=
  forall k, fst (rand_draws g1 k) = fst (rand_draws g2 k).

(** The function has no [raise]: seen as a call it always returns. *)
Definition sampler_call (rng : G) (p : tensor Q) (samples : nat)
  : result (tensor Z * G) :=
  Ok (vectorized_random_choice rng p samples).

End Sampler.

(** ** Collaborators: tokenizer, model, tensor runtime *)

Inductive prompt : Type :=
| PromptStr (s : string)
| PromptList (l : list string).

(** [Union[str, List[str]]], the value returned by [__call__]. *)
Inductive completion : Type :=
| Single (s : string)
| Many (l : list string).

Record Tokenizer : Type := mkTokenizer {
  encode : prompt -> tensor Z * tensor Z;
  decode : list (list Z) -> list string;
  pad_token_id : Z
}.

(** [KVCacheType]: a tuple of tuples of tensors, each tensor kept as its
    rows along the batch axis. *)
Definition KVCache (KVRow : Type) : Type := list (list (list KVRow)).

Record Transformers (KVRow : Type) : Type := mkTransformers {
  forward : list (list Z) -> list (list Z) -> option (KVCache KVRow)
            -> tensor Q * option (KVCache KVRow);
  tokenizer : Tokenizer
}.

Arguments forward {KVRow} t _ _ _.
Arguments tokenizer {KVRow} t.

(** [torch.nn.functional.softmax(_, dim=-1)] *)
Class Functional : Type := { softmax : tensor Q -> tensor Q }.

(** ** The class [Sequence]: its attributes and its overridable methods *)

Record Sequence (KVRow : Type) : Type := mkSequence {
  model : Transformers KVRow;
  max_tokens : option Z;
  create_proposal : list (list Z) -> tensor Q -> tensor Q;
  is_finished : list (list Z) -> result (list bool);
  postprocess_completions : list string -> list string
}.

Arguments model {KVRow} s.
Arguments max_tokens {KVRow} s.
Arguments create_proposal {KVRow} s _ _.
Arguments is_finished {KVRow} s _.
Arguments postprocess_completions {KVRow} s _.

(** The methods as the base class defines them. *)
Definition base_create_proposal (generated_token_ids : list (list Z)) (logits : tensor Q)
  : tensor Q := logits.

Definition base_is_finished (token_ids : list (list Z)) : result (list bool) :=
  Raise NotImplementedError.

Definition base_postprocess_completions (completions : list string) : list string :=
  completions.

(** [if past_key_values:] *)
Definition kv_truthy {KVRow : Type} (pkv : option (KVCache KVRow)) : bool :=
  match pkv with
  | Some (_ :: _) => true
  | _ => false
  end.

(** [tuple(tuple(vv[~local_is_finished] for vv in v) for v in past_key_values)] *)
Definition prune_kv {KVRow : Type} (pkv : KVCache KVRow) (local_is_finished : list bool)
  : result (KVCache KVRow) :=
  mapM (mapM (fun vv => mask_select vv (map negb local_is_finished))) pkv.

(** [Sequence.expand_attention_mask] *)
Definition expand_attention_mask (attention_mask : list (list Z)) : list (list Z) :=
  zip_with app attention_mask (replicate (length attention_mask) [1%Z]).

(** [if len(result) == 1: return result[0]] and [return result] otherwise. *)
Definition single_or_list (result : list string) : completion :=
  match result with
  | [s] => Single s
  | _ => Many result
  end.

(** The two ways to lay out [samples] continuations of each prompt along the
    rows of the batch: row [p * samples + s], or row [s * num_prompts + p],
    continues prompt [p]. *)
Definition prompt_major (prompts : list (list Z)) (samples : nat)
    (rows : list (list Z)) : Prop :=
  forall p s r, prompts !! p = Some r -> s < samples ->
    exists g, rows !! (p * samples + s) = Some (r ++ g).

Definition sample_major (prompts : list (list Z)) (samples : nat)
    (rows : list (list Z)) : Prop :=
  forall p s r, prompts !! p = Some r -> s < samples ->
    exists g, rows !! (s * length prompts + p) = Some (r ++ g).

Section Loop.
Context {G : Type} `{Generator G} `{Functional} `{FloatFormat} {KVRow : Type}.

(** The variables the [while] loop of [__call__] updates; [finished] is the
    local variable [is_finished], whose name the method has here. *)
Record state : Type := mkState {
  token_ids : list (list Z);
  attention_mask : list (list Z);
  finished : list bool;
  unfinished_past_key_values : option (KVCache KVRow);
  rng : G
}.

(** [Sequence.step] *)
Definition step (self : Sequence KVRow) (rng : G) (num_prompt_tokens : nat)
    (token_ids attention_mask : list (list Z)) (samples : nat)
    (past_key_values : option (KVCache KVRow))
  : result (tensor Z * tensor Q * option (KVCache KVRow) * G) :=
  let (probs, past_key_values) :=
    forward (model self) token_ids attention_mask past_key_values in
  let probs := create_proposal self (map (drop num_prompt_tokens) token_ids) probs in
  let probs := softmax probs in
  if decide (batch_shape probs = [length token_ids]) then
    let (idx, rng') := vectorized_random_choice rng probs samples in
    let next_token_ids := unsqueeze_last idx in
    let probs := broadcast_to probs samples in
    Ok (next_token_ids, probs, past_key_values, rng')
  else Raise AssertionError.

(** The test at the head of the loop. *)
Definition loop_done (self : Sequence KVRow) (num_prompt_tokens : nat) (st : state)
  : bool :=
  let num_generated_tokens :=
    (Z.of_nat (ncols (token_ids st)) - Z.of_nat num_prompt_tokens)%Z in
  forallb (fun b : bool => b) (finished st)
  || match max_tokens self with
     | Some m => (num_generated_tokens =? m)%Z
     | None => false
     end.

(** One pass through the body of the loop. *)
Definition loop_body (self : Sequence KVRow) (batch_size num_prompt_tokens : nat)
    (st : state) : result state :=
  let is_not_finished := map negb (finished st) in
  unfinished_token_ids <- mask_select (token_ids st) is_not_finished ;;
  unfinished_attention_mask <- mask_select (attention_mask st) is_not_finished ;;
  r <- step self (rng st) num_prompt_tokens unfinished_token_ids
         unfinished_attention_mask 1 (unfinished_past_key_values st) ;;
  let '(unfinished_next_token_ids, _, past_key_values, rng') := r in
  let unfinished_next_token_ids := squeeze0 unfinished_next_token_ids in
  let next_token_ids :=
    replicate batch_size [pad_token_id (tokenizer (model self))] in
  next_token_ids <-
    index_put next_token_ids is_not_finished (matrix_rows unfinished_next_token_ids) ;;
  token_ids' <- concat_cols (token_ids st) next_token_ids ;;
  let attention_mask' := expand_attention_mask (attention_mask st) in
  active <- mask_select token_ids' is_not_finished ;;
  local_is_finished <- is_finished self (map (drop num_prompt_tokens) active) ;;
  is_finished' <- index_put (finished st) is_not_finished local_is_finished ;;
  unfinished_past_key_values' <-
    match past_key_values with
    | Some (v :: pkv) => kv <- prune_kv (v :: pkv) local_is_finished ;; Ok (Some kv)
    | _ => Ok (unfinished_past_key_values st)
    end ;;
  Ok (mkState token_ids' attention_mask' is_finished'
        unfinished_past_key_values' rng').

(** The loop itself; [None] when the fuel is used up before the loop exits. *)
Fixpoint generate (fuel : nat) (self : Sequence KVRow)
    (batch_size num_prompt_tokens : nat) (st : state) : option (result state) :=
  if loop_done self num_prompt_tokens st then Some (Ok st)
  else match fuel with
       | 0 => None
       | S fuel' =>
           match loop_body self batch_size num_prompt_tokens st with
           | Ok st' => generate fuel' self batch_size num_prompt_tokens st'
           | Raise e => Some (Raise e)
           end
       end.

(** The part of [__call__] before the loop: encoding, broadcasting to
    [samples] copies and flattening to [(batch_size, num_prompt_tokens)].
    It gives [batch_size], [num_prompt_tokens] and the first loop state.
    [entropy] is what [rng.seed()] reads when the caller gives no generator. *)
Definition initial (self : Sequence KVRow) (entropy : Z) (p : prompt) (samples : nat)
    (rng : option G) : result (nat * nat * state) :=
  let (token_ids, attention_mask) := encode (tokenizer (model self)) p in
  let token_ids := squeeze0 token_ids in
  let attention_mask := squeeze0 attention_mask in
  let rng := match rng with Some g => g | None => manual_seed entropy end in
  let orig_batch_shape := batch_shape token_ids in
  match shape token_ids with
  | [] => Raise IndexError
  | _ :: _ =>
      let num_prompt_tokens := List.last (shape token_ids) 0 in
      let token_ids := broadcast_to token_ids samples in
      let attention_mask := broadcast_to attention_mask samples in
      let batch_size := samples * numel orig_batch_shape in
      token_ids <- reshape token_ids [batch_size; num_prompt_tokens] ;;
      attention_mask <- reshape attention_mask [batch_size; num_prompt_tokens] ;;
      let is_finished := replicate batch_size false in
      Ok (batch_size, num_prompt_tokens,
          mkState (matrix_rows token_ids) (matrix_rows attention_mask)
                  is_finished None rng)
  end.

(** The part of [__call__] after the loop. *)
Definition finish (self : Sequence KVRow) (num_prompt_tokens : nat) (st : state)
  : completion :=
  let result := decode (tokenizer (model self))
                       (map (drop num_prompt_tokens) (token_ids st)) in
  let result := postprocess_completions self result in
  single_or_list result.

(** [Sequence.__call__] *)
Definition call (fuel : nat) (self : Sequence KVRow) (entropy : Z) (p : prompt)
    (samples : nat) (rng : option G) : option (result completion) :=
  match initial self entropy p samples rng with
  | Raise e => Some (Raise e)
  | Ok (batch_size, num_prompt_tokens, st) =>
      match generate fuel self batch_size num_prompt_tokens st with
      | None => None
      | Some (Raise e) => Some (Raise e)
      | Some (Ok st') => Some (Ok (finish self num_prompt_tokens st'))
      end
  end.

(** What the next pass hands to [model.forward]. *)
Definition forward_args (st : state)
  : list (list Z) * list (list Z) * option (KVCache KVRow) :=
  let is_not_finished := map negb (finished st) in
  (select is_not_finished (token_ids st),
   select is_not_finished (attention_mask st),
   unfinished_past_key_values st).

(** What [model.forward] returns in the pass that starts in [st]. *)
Definition forward_ret (self : Sequence KVRow) (st : state)
  : tensor Q * option (KVCache KVRow) :=
  let '(t, a, kv) := forward_args st in forward (model self) t a kv.

(** The distribution [step] samples from in the pass that starts in [st]:
    the scores of the model through [create_proposal] and the softmax. *)
Definition proposal (self : Sequence KVRow) (num_prompt_tokens : nat) (st : state)
  : tensor Q :=
  softmax (create_proposal self
             (map (drop num_prompt_tokens) (fst (fst (forward_args st))))
             (fst (forward_ret self st))).

(** The rows that are still active, by index. *)
Definition active_rows (st : state) : list nat :=
  select (map negb (finished st)) (seq 0 (length (finished st))).

(** [k] passes through the body lead from one state to the other. *)
Inductive iterates (self : Sequence KVRow) (batch_size num_prompt_tokens : nat)
  : nat -> state -> state -> Prop :=
| iterates_0 st : iterates self batch_size num_prompt_tokens 0 st st
| iterates_S k st st1 st2 :
    loop_done self num_prompt_tokens st = false ->
    loop_body self batch_size num_prompt_tokens st = Ok st1 ->
    iterates self batch_size num_prompt_tokens k st1 st2 ->
    iterates self batch_size num_prompt_tokens (S k) st st2.

(** Both matrices have [batch_size] rows and [cols] columns, and there is
    one flag per row. *)
Definition shaped (batch_size cols : nat) (st : state) : Prop :=
  length (token_ids st) = batch_size /\
  length (attention_mask st) = batch_size /\
  length (finished st) = batch_size /\
  Forall (fun r => length r = cols) (token_ids st) /\
  Forall (fun r => length r = cols) (attention_mask st).

(** Two loop states that differ at most in the generator state, the two
    generators giving the same stream. *)
Definition state_eqv (st1 st2 : state) : Prop :=
  token_ids st1 = token_ids st2 /\
  attention_mask st1 = attention_mask st2 /\
  finished st1 = finished st2 /\
  unfinished_past_key_values st1 = unfinished_past_key_values st2 /\
  same_stream (rng st1) (rng st2).

(** The contract of the overridable [is_finished]: one flag per row given. *)
Definition one_flag_per_row (self : Sequence KVRow) : Prop :=
  forall rows flags, is_finished self rows = Ok flags -> length flags = length rows.

(** The number of rows that are still active. *)
Definition num_unfinished (st : state) : nat :=
  count_true (map negb (finished st)).

(** What a pass that ends without an exception has computed: the column
    [next_token_ids] and the flags [local_is_finished] of the pass, and how
    the new state is made from them. *)
Inductive pass (self : Sequence KVRow) (batch_size num_prompt_tokens : nat)
    (st st' : state) : Prop :=
| mkPass (next_token_ids : list (list Z)) (local_is_finished : list bool) :
    length (finished st) = length (token_ids st) ->
    length (finished st) = length (attention_mask st) ->
    length next_token_ids = length (token_ids st) ->
    length next_token_ids = batch_size ->
    Forall (fun r => length r = 1) next_token_ids ->
    (forall i, finished st !! i = Some true ->
       next_token_ids !! i = Some [pad_token_id (tokenizer (model self))]) ->
    token_ids st' = zip_with app (token_ids st) next_token_ids ->
    attention_mask st' = expand_attention_mask (attention_mask st) ->
    is_finished self
      (map (drop num_prompt_tokens)
           (select (map negb (finished st)) (token_ids st')))
    = Ok local_is_finished ->
    index_put (finished st) (map negb (finished st)) local_is_finished
    = Ok (finished st') ->
    (kv_truthy (snd (forward_ret self st)) = false ->
     unfinished_past_key_values st' = unfinished_past_key_values st) ->
    (kv_truthy (snd (forward_ret self st)) = true ->
     exists kv0 kv,
       snd (forward_ret self st) = Some kv0 /\
       prune_kv kv0 local_is_finished = Ok kv /\
       unfinished_past_key_values st' = Some kv) ->
    pass self batch_size num_prompt_tokens st st'.

End Loop.

(** ** Concrete collaborators, to run the definitions *)

(** A linear congruential generator on 31 bits; the state itself, scaled to
    [0,1), is the number drawn. *)
Definition lcg_modulus : positive := 2147483648%positive.

Definition lcg_seed (z : Z) : Z := (z mod Zpos lcg_modulus)%Z.

Definition lcg_uniform (s : Z) : Q * Z :=
  (((s mod Zpos lcg_modulus) # lcg_modulus)%Q,
   ((1103515245 * s + 12345) mod Zpos lcg_modulus)%Z).

(** A generator that replays a given stream of the 53 bit words from
    which a uniform binary64 number is made, the number being the word scaled
    by [2 ^ -53]; after the stream it gives zeros. *)
Definition replay_seed (z : Z) : list Z := [z].

Definition replay_uniform (s : list Z) : Q * list Z :=
  match s with
  | [] => (0%Q, [])
  | w :: s' => (((w mod 9007199254740992) # 9007199254740992)%Q, s')
  end.

(** A row of six binary64 numbers that add up to one: a half, four times
    [2 ^ -54], and a half less [2 ^ -52]. *)
Definition rounding_row : list Q :=
  [1 # 2; 1 # 18014398509481984; 1 # 18014398509481984; 1 # 18014398509481984;
   1 # 18014398509481984; 2251799813685247 # 4503599627370496]%Q.

(** A softmax in base two on the integer parts of the logits, which stays
    in the rationals. *)
Definition exp2 (x : Q) : Q := Qpower 2 (Qfloor x).

Definition softmax2_row (r : list Q) : list Q :=
  let w := map exp2 r in
  map (fun x => Qred (x / Qsum w)) w.

Definition softmax2 (t : tensor Q) : tensor Q :=
  mkTensor (shape t) (concat (map softmax2_row (matrix_rows t))).

(** A tokenizer with one token per prompt, the length of the prompt, a
    vocabulary of four tokens, [0] for padding and [3] to stop. *)
Definition demo_encode (p : prompt) : tensor Z * tensor Z :=
  let l := match p with PromptStr s => [s] | PromptList l => l end in
  (mkTensor [length l; 1] (map (fun s => Z.of_nat (String.length s)) l),
   mkTensor [length l; 1] (replicate (length l) 1%Z)).

Definition demo_decode_row (r : list Z) : string :=
  fold_right (fun t acc =>
                (match t with 0%Z => "_" | 1%Z => "x" | 2%Z => "y" | _ => "." end
                 ++ acc)%string)
             ""%string r.

Definition demo_tokenizer : Tokenizer :=
  mkTokenizer demo_encode (map demo_decode_row) 0%Z.

(** A model that puts nearly all the mass on the successor of the last
    token and returns one layer of key and value tensors, one row per
    sequence. [demo_forward_once] returns that state on the first call only,
    when it is given none, and [None] afterwards. *)
Definition demo_logits (token_ids : list (list Z)) : tensor Q :=
  mkTensor [length token_ids; 4]
    (flat_map (fun r => map (fun v => if (v =? (List.last r 0 + 1) mod 4)%Z
                                      then 40%Q else 0%Q)
                            [0; 1; 2; 3]%Z)
              token_ids).

Definition demo_kv (token_ids : list (list Z)) : KVCache Z :=
  [[map (fun r => List.last r 0%Z) token_ids; map (fun r => List.last r 0%Z) token_ids]].

Definition demo_forward (token_ids attention_mask : list (list Z))
    (pkv : option (KVCache Z)) : tensor Q * option (KVCache Z) :=
  (demo_logits token_ids, Some (demo_kv token_ids)).

Definition demo_forward_once (token_ids attention_mask : list (list Z))
    (pkv : option (KVCache Z)) : tensor Q * option (KVCache Z) :=
  (demo_logits token_ids,
   match pkv with None => Some (demo_kv token_ids) | Some _ => None end).

(** A row is finished when its last token is the stop token. *)
Definition demo_is_finished (token_ids : list (list Z)) : result (list bool) :=
  Ok (map (fun r => (List.last r 0 =? 3)%Z) token_ids).

Definition demo_sequence (fwd : list (list Z) -> list (list Z) -> option (KVCache Z)
                                -> tensor Q * option (KVCache Z))
    (max_tokens : option Z) : Sequence Z :=
  mkSequence Z (mkTransformers Z fwd demo_tokenizer) max_tokens
             base_create_proposal demo_is_finished base_postprocess_completions.

(** A model whose scores have a row for the first sequence only, a
    tokenizer whose mask has a single element, and termination hooks that
    flag every row or none. *)
Definition demo_forward_misaligned (token_ids attention_mask : list (list Z))
    (pkv : option (KVCache Z)) : tensor Q * option (KVCache Z) :=
  (demo_logits (take 1 token_ids), None).

Definition demo_misaligned : Sequence Z :=
  demo_sequence demo_forward_misaligned (Some 3%Z).

Definition demo_bad_mask : Sequence Z :=
  mkSequence Z
    (mkTransformers Z demo_forward
       (mkTokenizer (fun p => (fst (demo_encode p), mkTensor [1] [1%Z]))
                    (map demo_decode_row) 0%Z))
    (Some 1%Z) base_create_proposal demo_is_finished base_postprocess_completions.

Definition demo_hook_const (b : bool) (max_tokens : option Z) : Sequence Z :=
  mkSequence Z (mkTransformers Z demo_forward demo_tokenizer) max_tokens
             base_create_proposal (fun rows => Ok (map (fun _ => b) rows))
             base_postprocess_completions.

(** The class [Sequence] itself, no method overridden, on a given model. *)
Definition base_sequence {KVRow : Type} (m : Transformers KVRow)
    (max_tokens : option Z) : Sequence KVRow :=
  mkSequence KVRow m max_tokens
             base_create_proposal base_is_finished base_postprocess_completions.

(** Two prompts and two samples with a budget of one token, and the states
    of that run. *)
Definition demo_two_by_two : Sequence Z := demo_sequence demo_forward (Some 1%Z).

Definition demo_two_by_two_st0 : @state Z Z :=
  mkState [[1]; [2]; [1]; [2]]%Z [[1]; [1]; [1]; [1]]%Z
          [false; false; false; false] None 7%Z.

Definition demo_two_by_two_st1 : @state Z Z :=
  mkState [[1; 2]; [2; 3]; [1; 2]; [2; 3]]%Z [[1; 1]; [1; 1]; [1; 1]; [1; 1]]%Z
          [false; true; false; true] (Some [[[1; 1]; [1; 1]]]%Z) 1486001571%Z.

(** Two prompts, one sample, a budget of three tokens and the model that
    returns a state on its first call only; the states of that run. *)
Definition demo_once : Sequence Z := demo_sequence demo_forward_once (Some 3%Z).

Definition demo_once_st0 : @state Z Z :=
  mkState [[0]; [1]]%Z [[1]; [1]]%Z [false; false] None 7%Z.

Definition demo_once_st1 : @state Z Z :=
  mkState [[0; 1]; [1; 2]]%Z [[1; 1]; [1; 1]]%Z [false; false]
          (Some [[[0; 1]; [0; 1]]]%Z) 642666333%Z.

Definition demo_once_st2 : @state Z Z :=
  mkState [[0; 1; 2]; [1; 2; 3]]%Z [[1; 1; 1]; [1; 1; 1]]%Z [false; true]
          (Some [[[0; 1]; [0; 1]]]%Z) 1486001571%Z.

Definition demo_once_st3 : @state Z Z :=
  mkState [[0; 1; 2; 3]; [1; 2; 3; 0]]%Z [[1; 1; 1; 1]; [1; 1; 1; 1]]%Z [true; true]
          (Some [[[0; 1]; [0; 1]]]%Z) 2131988640%Z.

(** The row that puts probability one on index [j] of [n]. *)
Definition one_hot (j n : nat) : list Q :=
  replicate j 0%Q ++ 1%Q :: replicate (n - j - 1) 0%Q.

(** * Properties *)

Lemma bind_Ok {A B : Type} (m : result A) (k : A -> result B) (b : B) :
  bind m k = Ok b -> exists a, m = Ok a /\ k a = Ok b.
Proof. destruct m as [a|e]; simpl; intros Hb; [eauto | discriminate]. Qed.

Lemma lcg_uniform_range (s : Z) :
  (0 <= fst (lcg_uniform s) /\ fst (lcg_uniform s) < 1)%Q.
Proof.
  unfold lcg_uniform, Qle, Qlt; simpl fst; simpl Qnum; simpl Qden.
  pose proof (Z.mod_pos_bound s (Zpos lcg_modulus) eq_refl) as Hb.
  lia.
Qed.

#[export] Instance softmax2_functional : Functional := {| softmax := softmax2 |}.

#[export] Instance exact_format : FloatFormat := {| rnd := exact_rnd |}.

#[export] Instance exact_laws : RoundingLaws.
Proof. split; simpl; unfold exact_rnd; intros; (assumption || reflexivity). Qed.

(** ** Rounding to nearest

    Rounding to [prec] bits, nearest even, keeps the order, leaves the
    numbers of the format as they are, and [0] and [1] are numbers of the
    format: binary64 has the laws the sampler's properties rest on. *)

Section Rounding.
Local Open Scope Q_scope.

Lemma round_half_even_bounds (t : Q) :
  (Qfloor t <= round_half_even t <= Qfloor t + 1)%Z.
Proof.
  unfold round_half_even.
  destruct (t - inject_Z (Qfloor t) ?= 1 # 2); [destruct (Z.even _) | |]; lia.
Qed.

Lemma round_half_even_Z (k : Z) : round_half_even (inject_Z k) = k.
Proof.
  unfold round_half_even. rewrite Qfloor_Z.
  destruct (Qcompare_spec (inject_Z k - inject_Z k) (1 # 2)); [exfalso; lra | reflexivity | exfalso; lra].
Qed.

Lemma round_half_even_comp (s t : Q) : s == t -> round_half_even s = round_half_even t.
Proof.
  intros Hst. unfold round_half_even.
  rewrite (Qfloor_comp _ _ Hst).
  assert (Hc : (s - inject_Z (Qfloor t) ?= 1 # 2) = (t - inject_Z (Qfloor t) ?= 1 # 2)).
  { apply Qcompare_comp; [now rewrite Hst | reflexivity]. }
  now rewrite Hc.
Qed.

Lemma round_half_even_monotone (s t : Q) :
  s <= t -> (round_half_even s <= round_half_even t)%Z.
Proof.
  intros Hst.
  pose proof (Qfloor_resp_le _ _ Hst) as Hfl.
  destruct (Z.eq_dec (Qfloor s) (Qfloor t)) as [Heq | Hne].
  - unfold round_half_even. rewrite Heq.
    destruct (Qcompare_spec (s - inject_Z (Qfloor t)) (1 # 2)) as [Hs | Hs | Hs];
      destruct (Qcompare_spec (t - inject_Z (Qfloor t)) (1 # 2)) as [Ht | Ht | Ht];
      try destruct (Z.even (Qfloor t)); try lia; exfalso; lra.
  - pose proof (round_half_even_bounds s). pose proof (round_half_even_bounds t). lia.
Qed.

Lemma two_pos (e : Z) : 0 < 2 ^ e.
Proof. apply Qpower_0_lt. reflexivity. Qed.

Lemma two_plus (e f : Z) : 2 ^ (e + f) == 2 ^ e * 2 ^ f.
Proof. apply Qpower_plus. discriminate. Qed.

Lemma two_succ (e : Z) : 2 ^ (e + 1) == 2 * 2 ^ e.
Proof. rewrite two_plus. change (2 ^ 1) with 2. ring. Qed.

Lemma two_Z (n : Z) : (0 <= n)%Z -> inject_Z (2 ^ n) == 2 ^ n.
Proof. intros Hn. now rewrite Zpower_Qpower. Qed.

Lemma two_le (e f : Z) : (e <= f)%Z -> 2 ^ e <= 2 ^ f.
Proof. intros Hef. apply Qpower_le_compat_l; [exact Hef | discriminate]. Qed.

Lemma two_lt_inv (e f : Z) : 2 ^ e < 2 ^ f -> (e < f)%Z.
Proof. intros Hef. apply (Qpower_lt_compat_l_inv 2); [exact Hef | reflexivity]. Qed.

Variable prec : Z.

Lemma binade_spec (a : Q) :
  0 < a -> 2 ^ (binade prec a + prec - 1) <= a < 2 ^ (binade prec a + prec).
Proof.
  intros Ha. destruct a as [n d].
  assert (Hn : (0 < n)%Z).
  { unfold Qlt in Ha. simpl in Ha. lia. }
  unfold binade. cbn [Qnum Qden].
  set (la := Z.log2 n). set (ld := Z.log2 (Z.pos d)).
  set (e0 := (la - ld - prec + 1)%Z).
  pose proof (Z.log2_spec n Hn) as Hla. fold la in Hla.
  pose proof (Z.log2_spec (Z.pos d) (Pos2Z.is_pos d)) as Hld. fold ld in Hld.
  pose proof (Z.log2_nonneg n) as Hla0. fold la in Hla0.
  pose proof (Z.log2_nonneg (Z.pos d)) as Hld0. fold ld in Hld0.
  rewrite !Z.pow_succ_r in Hla, Hld by assumption.
  assert (HA : 2 ^ la <= inject_Z n /\ inject_Z n < 2 * 2 ^ la).
  { rewrite <- (two_Z la Hla0). change (2 * inject_Z (2 ^ la)) with (inject_Z 2 * inject_Z (2 ^ la)).
    rewrite <- inject_Z_mult, <- Zle_Qle, <- Zlt_Qlt. exact Hla. }
  assert (HD : 2 ^ ld <= inject_Z (Z.pos d) /\ inject_Z (Z.pos d) < 2 * 2 ^ ld).
  { rewrite <- (two_Z ld Hld0). change (2 * inject_Z (2 ^ ld)) with (inject_Z 2 * inject_Z (2 ^ ld)).
    rewrite <- inject_Z_mult, <- Zle_Qle, <- Zlt_Qlt. exact Hld. }
  pose proof (two_pos la) as HAp. pose proof (two_pos ld) as HDp.
  assert (Hx : (n # d) * inject_Z (Z.pos d) == inject_Z n).
  { rewrite (Qmake_Qdiv n d). field. intros H0. lra. }
  assert (Hup : (n # d) * 2 ^ ld < 2 * 2 ^ la) by nra.
  assert (Hlo : 2 ^ la < 2 * 2 ^ ld * (n # d)) by nra.
  assert (He1 : 2 ^ la == 2 ^ (e0 + prec - 1) * 2 ^ ld).
  { rewrite <- two_plus. now replace (e0 + prec - 1 + ld)%Z with la by lia. }
  destruct (Qle_bool (2 ^ (prec - 1)) ((n # d) / 2 ^ e0)) eqn:Hb.
  - apply Qle_bool_iff in Hb. split.
    + replace (e0 + prec - 1)%Z with (prec - 1 + e0)%Z by lia. rewrite two_plus.
      pose proof (two_pos e0) as He0.
      apply (Qmult_le_compat_r _ _ (2 ^ e0)) in Hb; [| lra].
      assert (Hc : (n # d) / 2 ^ e0 * 2 ^ e0 == n # d) by (field; lra).
      now rewrite Hc in Hb.
    + replace (e0 + prec)%Z with (e0 + prec - 1 + 1)%Z by lia. rewrite two_succ.
      pose proof (two_pos (e0 + prec - 1)). nra.
  - assert (Hlt : (n # d) / 2 ^ e0 < 2 ^ (prec - 1)).
    { apply Qnot_le_lt. intros Hle. apply Qle_bool_iff in Hle. congruence. }
    pose proof (two_pos e0) as He0. split.
    + assert (He2 : 2 ^ (e0 + prec - 1) == 2 * 2 ^ (e0 - 1 + prec - 1)).
      { rewrite <- two_succ. now replace (e0 - 1 + prec - 1 + 1)%Z with (e0 + prec - 1)%Z by lia. }
      pose proof (two_pos (e0 - 1 + prec - 1)). nra.
    + replace (e0 - 1 + prec)%Z with (prec - 1 + e0)%Z by lia. rewrite two_plus.
      apply (Qmult_lt_compat_r _ _ (2 ^ e0)) in Hlt; [| lra].
      assert (Hc : (n # d) / 2 ^ e0 * 2 ^ e0 == n # d) by (field; lra).
      now rewrite Hc in Hlt.
Qed.

Lemma binade_unique (a : Q) (e : Z) :
  0 < a -> 2 ^ (e + prec - 1) <= a < 2 ^ (e + prec) -> binade prec a = e.
Proof.
  intros Ha [Hlo Hhi]. destruct (binade_spec a Ha) as [Hlo' Hhi'].
  assert (H1 : (e + prec - 1 < binade prec a + prec)%Z).
  { apply two_lt_inv. lra. }
  assert (H2 : (binade prec a + prec - 1 < e + prec)%Z).
  { apply two_lt_inv. lra. }
  lia.
Qed.

Lemma binade_monotone (a b : Q) :
  0 < a -> a <= b -> (binade prec a <= binade prec b)%Z.
Proof.
  intros Ha Hab.
  destruct (binade_spec a Ha) as [Hlo _].
  destruct (binade_spec b) as [_ Hhi]; [lra |].
  assert (H1 : (binade prec a + prec - 1 < binade prec b + prec)%Z).
  { apply two_lt_inv. lra. }
  lia.
Qed.

Lemma binade_comp (a b : Q) : 0 < a -> a == b -> binade prec a = binade prec b.
Proof.
  intros Ha Hab. symmetry. apply binade_unique; [lra |].
  rewrite <- Hab. now apply binade_spec.
Qed.

(** The rounding of a positive number, of a negative one and of zero. *)
Lemma round_pos (x : Q) :
  0 < x ->
  round_nearest_even prec x ==
  inject_Z (round_half_even (x / 2 ^ binade prec x)) * 2 ^ binade prec x.
Proof.
  intros Hx. destruct x as [n d].
  assert (Hn : (0 < n)%Z).
  { unfold Qlt in Hx. simpl in Hx. lia. }
  unfold round_nearest_even. cbn [Qnum].
  destruct (Z.eqb_spec n 0) as [-> | _]; [lia |].
  assert (Habs : Qabs (n # d) = n # d).
  { unfold Qabs. now rewrite Z.abs_eq by lia. }
  rewrite Habs, Qred_correct, Z.sgn_pos, Z.mul_1_l by exact Hn. reflexivity.
Qed.

Lemma round_neg (x : Q) :
  x < 0 -> round_nearest_even prec x == - round_nearest_even prec (- x).
Proof.
  intros Hx. destruct x as [n d].
  assert (Hn : (n < 0)%Z).
  { unfold Qlt in Hx. simpl in Hx. lia. }
  rewrite (round_pos (- (n # d))) by lra.
  unfold round_nearest_even. cbn [Qnum].
  destruct (Z.eqb_spec n 0) as [-> | _]; [lia |].
  assert (Habs : Qabs (n # d) = - (n # d)).
  { unfold Qabs, Qopp. cbn [Qnum Qden]. now rewrite Z.abs_neq by lia. }
  rewrite Habs, Qred_correct, Z.sgn_neg by exact Hn.
  rewrite inject_Z_mult. change (inject_Z (-1)) with (- (1)). ring.
Qed.

Lemma round_zero (x : Q) : x == 0 -> round_nearest_even prec x = 0.
Proof.
  intros Hx. destruct x as [n d].
  assert (Hn : n = 0%Z).
  { unfold Qeq in Hx. simpl in Hx. lia. }
  unfold round_nearest_even. cbn [Qnum]. now rewrite Hn.
Qed.

Hypothesis prec_pos : (1 <= prec)%Z.

(** The significand of a rounded positive number has [prec] bits, or is
    [2 ^ prec] after a carry. *)
Lemma significand_range (x : Q) :
  0 < x ->
  (2 ^ (prec - 1) <= round_half_even (x / 2 ^ binade prec x) <= 2 ^ prec)%Z.
Proof.
  intros Hx. set (e := binade prec x).
  destruct (binade_spec x Hx) as [Hlo Hhi]. fold e in Hlo, Hhi.
  pose proof (two_pos e) as He.
  assert (Hlo' : inject_Z (2 ^ (prec - 1)) <= x / 2 ^ e).
  { rewrite two_Z by lia. apply Qle_shift_div_l; [exact He |].
    rewrite <- two_plus. now replace (prec - 1 + e)%Z with (e + prec - 1)%Z by lia. }
  assert (Hhi' : x / 2 ^ e < inject_Z (2 ^ prec)).
  { rewrite two_Z by lia. apply Qlt_shift_div_r; [exact He |].
    rewrite <- two_plus. now replace (prec + e)%Z with (e + prec)%Z by lia. }
  pose proof (round_half_even_bounds (x / 2 ^ e)) as Hb.
  apply Qfloor_resp_le in Hlo'. rewrite Qfloor_Z in Hlo'.
  assert (Hfl : (Qfloor (x / 2 ^ e) < 2 ^ prec)%Z).
  { rewrite Zlt_Qlt. eapply Qle_lt_trans; [apply Qfloor_le | exact Hhi']. }
  lia.
Qed.

Lemma round_pos_pos (x : Q) : 0 < x -> 0 < round_nearest_even prec x.
Proof.
  intros Hx. rewrite (round_pos x Hx).
  pose proof (significand_range x Hx) as [Hm _].
  assert (H0 : (0 < 2 ^ (prec - 1))%Z) by (apply Z.pow_pos_nonneg; lia).
  apply Qmult_lt_0_compat; [| apply two_pos].
  change 0 with (inject_Z 0). rewrite <- Zlt_Qlt. lia.
Qed.

Lemma round_pos_comp (x y : Q) :
  0 < x -> x == y -> round_nearest_even prec x == round_nearest_even prec y.
Proof.
  intros Hx Hxy. rewrite (round_pos x Hx), (round_pos y) by lra.
  rewrite <- (binade_comp x y Hx Hxy).
  rewrite (round_half_even_comp (x / 2 ^ binade prec x) (y / 2 ^ binade prec x));
    [reflexivity | apply Qdiv_comp; [exact Hxy | reflexivity]].
Qed.

Lemma round_comp (x y : Q) :
  x == y -> round_nearest_even prec x == round_nearest_even prec y.
Proof.
  intros Hxy. destruct (Q_dec x 0) as [[Hx | Hx] | Hx].
  - rewrite (round_neg x Hx), (round_neg y) by lra.
    apply Qopp_comp. apply round_pos_comp; [lra | now rewrite Hxy].
  - now apply round_pos_comp.
  - rewrite (round_zero x Hx), (round_zero y) by lra. reflexivity.
Qed.

Lemma round_pos_monotone (x y : Q) :
  0 < x -> x <= y -> round_nearest_even prec x <= round_nearest_even prec y.
Proof.
  intros Hx Hxy. assert (Hy : 0 < y) by lra.
  rewrite (round_pos x Hx), (round_pos y Hy).
  pose proof (binade_monotone x y Hx Hxy) as He.
  set (ex := binade prec x) in *. set (ey := binade prec y) in *.
  pose proof (two_pos ex) as Hex. pose proof (two_pos ey) as Hey.
  destruct (Z.eq_dec ex ey) as [Heq | Hne].
  - rewrite <- Heq. apply Qmult_le_compat_r; [| lra].
    rewrite <- Zle_Qle. apply round_half_even_monotone.
    apply Qmult_le_compat_r; [exact Hxy |]. apply Qlt_le_weak, Qinv_lt_0_compat, Hex.
  - pose proof (significand_range x Hx) as [_ Hmx]. fold ex in Hmx.
    pose proof (significand_range y Hy) as [Hmy _]. fold ey in Hmy.
    rewrite Zle_Qle, two_Z in Hmx by lia. rewrite Zle_Qle, two_Z in Hmy by lia.
    apply Qle_trans with (2 ^ prec * 2 ^ ex).
    { apply Qmult_le_compat_r; [exact Hmx | lra]. }
    apply Qle_trans with (2 ^ (prec - 1) * 2 ^ ey).
    { rewrite <- !two_plus. apply two_le. lia. }
    apply Qmult_le_compat_r; [exact Hmy | lra].
Qed.

(** A number with a significand of [prec] bits is a number of the format. *)
Lemma round_representable (k f : Z) :
  (2 ^ (prec - 1) <= k < 2 ^ prec)%Z ->
  round_nearest_even prec (inject_Z k * 2 ^ f) == inject_Z k * 2 ^ f.
Proof.
  intros [Hlo Hhi]. pose proof (two_pos f) as Hf.
  rewrite Zle_Qle, two_Z in Hlo by lia. rewrite Zlt_Qlt, two_Z in Hhi by lia.
  pose proof (two_pos (prec - 1)) as Hp.
  assert (Hz : 0 < inject_Z k * 2 ^ f).
  { apply Qmult_lt_0_compat; lra. }
  assert (He : binade prec (inject_Z k * 2 ^ f) = f).
  { apply binade_unique; [exact Hz |]. split.
    - replace (f + prec - 1)%Z with (prec - 1 + f)%Z by lia. rewrite two_plus.
      apply Qmult_le_compat_r; [exact Hlo | lra].
    - replace (f + prec)%Z with (prec + f)%Z by lia. rewrite two_plus.
      apply Qmult_lt_compat_r; [exact Hf | exact Hhi]. }
  rewrite (round_pos _ Hz), He.
  rewrite (round_half_even_comp (inject_Z k * 2 ^ f / 2 ^ f) (inject_Z k)).
  - now rewrite round_half_even_Z.
  - field. lra.
Qed.

Lemma round_pos_idempotent (x : Q) :
  0 < x ->
  round_nearest_even prec (round_nearest_even prec x) == round_nearest_even prec x.
Proof.
  intros Hx. pose proof (round_pos x Hx) as Hr.
  pose proof (significand_range x Hx) as [Hlo Hhi].
  set (e := binade prec x) in *. set (m := round_half_even (x / 2 ^ e)) in *.
  assert (H0 : (0 < 2 ^ (prec - 1))%Z) by (apply Z.pow_pos_nonneg; lia).
  assert (H2 : (2 ^ prec = 2 * 2 ^ (prec - 1))%Z).
  { rewrite <- Z.pow_succ_r by lia. f_equal. lia. }
  destruct (Z.eq_dec m (2 ^ prec)%Z) as [Hm | Hm].
  - assert (Hr' : round_nearest_even prec x == inject_Z (2 ^ (prec - 1)) * 2 ^ (e + 1)).
    { rewrite Hr, Hm, H2, inject_Z_mult, two_succ. change (inject_Z 2) with 2. ring. }
    rewrite (round_comp _ _ Hr'), Hr'. apply round_representable. lia.
  - rewrite (round_comp _ _ Hr), Hr. apply round_representable. lia.
Qed.

Theorem round_monotone (x y : Q) :
  x <= y -> round_nearest_even prec x <= round_nearest_even prec y.
Proof.
  intros Hxy.
  destruct (Q_dec x 0) as [[Hx | Hx] | Hx]; destruct (Q_dec y 0) as [[Hy | Hy] | Hy];
    try (exfalso; lra).
  - rewrite (round_neg x Hx), (round_neg y Hy).
    apply Qopp_le_compat. apply round_pos_monotone; lra.
  - pose proof (round_pos_pos (- x)). pose proof (round_pos_pos y Hy).
    rewrite (round_neg x Hx). lra.
  - rewrite (round_neg x Hx), (round_zero y Hy).
    pose proof (round_pos_pos (- x)). lra.
  - now apply round_pos_monotone.
  - rewrite (round_zero x Hx). pose proof (round_pos_pos y Hy). lra.
  - rewrite (round_zero x Hx), (round_zero y Hy). lra.
Qed.

Theorem round_idempotent (x : Q) :
  round_nearest_even prec (round_nearest_even prec x) == round_nearest_even prec x.
Proof.
  destruct (Q_dec x 0) as [[Hx | Hx] | Hx].
  - pose proof (round_pos_pos (- x)) as Hp.
    assert (Hr : round_nearest_even prec x < 0).
    { rewrite (round_neg x Hx). lra. }
    rewrite (round_neg _ Hr).
    rewrite (round_comp (- round_nearest_even prec x) (round_nearest_even prec (- x))).
    + rewrite round_pos_idempotent by lra. rewrite (round_neg x Hx). ring.
    + rewrite (round_neg x Hx). ring.
  - now apply round_pos_idempotent.
  - rewrite (round_zero x Hx). now rewrite (round_zero 0).
Qed.

Theorem round_one : round_nearest_even prec 1 == 1.
Proof.
  assert (H1 : 1 == inject_Z (2 ^ (prec - 1)) * 2 ^ (1 - prec)).
  { rewrite two_Z by lia. rewrite <- two_plus.
    now replace (prec - 1 + (1 - prec))%Z with 0%Z by lia. }
  rewrite (round_comp _ _ H1), H1 at 1. apply round_representable.
  assert (H0 : (0 < 2 ^ (prec - 1))%Z) by (apply Z.pow_pos_nonneg; lia).
  assert (H2 : (2 ^ prec = 2 * 2 ^ (prec - 1))%Z).
  { rewrite <- Z.pow_succ_r by lia. f_equal. lia. }
  lia.
Qed.

End Rounding.

Lemma binary64_laws : @RoundingLaws binary64.
Proof.
  split; simpl.
  - apply round_monotone. lia.
  - apply round_idempotent. lia.
  - reflexivity.
  - apply round_one. lia.
Qed.

Lemma replay_uniform_range (s : list Z) :
  (0 <= fst (replay_uniform s) /\ fst (replay_uniform s) < 1)%Q.
Proof.
  destruct s as [|w s]; simpl; [split; [apply Qle_refl | reflexivity]|].
  unfold Qle, Qlt; simpl Qnum; simpl Qden.
  pose proof (Z.mod_pos_bound w 9007199254740992 eq_refl) as Hb. lia.
Qed.

Definition replay_generator : Generator (list Z) :=
  {| manual_seed := replay_seed;
     uniform := replay_uniform;
     uniform_range := replay_uniform_range |}.

#[export] Instance lcg_generator : Generator Z :=
  {| manual_seed := lcg_seed;
     uniform := lcg_uniform;
     uniform_range := lcg_uniform_range |}.

(** ** Lists of rows *)

Lemma lookup_map {A B : Type} (f : A -> B) (l : list A) (i : nat) :
  map f l !! i = f <$> (l !! i).
Proof. exact (list_lookup_fmap f l i). Qed.

Lemma length_rows_of {A : Type} (n c : nat) (d : list A) :
  length (rows_of n c d) = n.
Proof. unfold rows_of. now rewrite length_map, length_seq. Qed.

Lemma lookup_rows_of {A : Type} (n c : nat) (d : list A) (i : nat) :
  i < n -> rows_of n c d !! i = Some (row_at c d i).
Proof.
  intros Hi. unfold rows_of. rewrite lookup_map, lookup_seq_lt by exact Hi.
  reflexivity.
Qed.

Lemma length_row_at {A : Type} (c : nat) (d : list A) (i : nat) :
  i * c + c <= length d -> length (row_at c d i) = c.
Proof. intros Hd. unfold row_at. rewrite length_take, length_drop. lia. Qed.

Lemma lookup_row_at {A : Type} (c : nat) (d : list A) (i j : nat) :
  j < c -> row_at c d i !! j = d !! (i * c + j).
Proof.
  intros Hj. unfold row_at. rewrite lookup_take_lt by exact Hj.
  now rewrite lookup_drop.
Qed.

Lemma lookup_flat_map_uniform {A B : Type} (f : A -> list B) (c : nat) :
  forall (l : list A) (s b : nat) (x : A),
    Forall (fun y => length (f y) = c) l ->
    l !! s = Some x -> b < c ->
    flat_map f l !! (s * c + b) = f x !! b.
Proof.
  induction l as [|y l IH]; intros s b x Hall Hs Hb; [discriminate|].
  inversion_clear Hall as [|? ? Hy Hl]. simpl.
  destruct s as [|s]; simpl in Hs.
  - injection Hs as ->. simpl. apply lookup_app_l. lia.
  - rewrite lookup_app_r by (rewrite Hy; lia).
    replace (S s * c + b - length (f y)) with (s * c + b) by (rewrite Hy; lia).
    now apply IH.
Qed.

Lemma length_flat_map_uniform {A B : Type} (f : A -> list B) (c : nat) (l : list A) :
  Forall (fun y => length (f y) = c) l -> length (flat_map f l) = length l * c.
Proof.
  induction 1 as [|y l Hy _ IH]; simpl; [reflexivity|].
  rewrite length_app, Hy, IH. reflexivity.
Qed.

Lemma numel_app_1 (s : list nat) : numel (s ++ [1]) = numel s.
Proof. induction s as [|a s IH]; simpl; [reflexivity | now rewrite IH]. Qed.

Lemma numel_split (s : list nat) : numel s = numel (removelast s) * List.last s 1.
Proof.
  induction s as [|a [|b s] IH]; [reflexivity | simpl; lia |].
  change (numel (a :: b :: s)) with (a * numel (b :: s)).
  change (removelast (a :: b :: s)) with (a :: removelast (b :: s)).
  change (List.last (a :: b :: s) 1) with (List.last (b :: s) 1).
  change (numel (a :: removelast (b :: s))) with (a * numel (removelast (b :: s))).
  rewrite IH. lia.
Qed.

(** ** The sampler *)

Lemma Qltb_lt (x y : Q) : Qltb x y = true <-> (x < y)%Q.
Proof. unfold Qltb, Qlt. apply Z.ltb_lt. Qed.

Lemma Qltb_ge (x y : Q) : Qltb x y = false <-> (y <= x)%Q.
Proof. unfold Qltb, Qle. apply Z.ltb_ge. Qed.

Lemma count_below_cons (c : Q) (cs : list Q) (u : Q) :
  count_below (c :: cs) u = (if Qltb c u then 1 else 0) + count_below cs u.
Proof. unfold count_below. simpl. destruct (Qltb c u); reflexivity. Qed.

Lemma count_below_le (cs : list Q) (u : Q) : count_below cs u <= length cs.
Proof. unfold count_below. apply filter_length_le. Qed.

Lemma normalizedb_sum (r : list Q) : normalizedb r = true -> (Qsum r == 1)%Q /\ r <> [].
Proof.
  unfold normalizedb. intros Hn. apply andb_prop in Hn as [_ Hs].
  apply Qeq_bool_iff in Hs. split; [exact Hs|].
  intros ->. simpl in Hs. discriminate Hs.
Qed.

Lemma Qltb_dec (c u : Q) : Qltb c u = if Qlt_le_dec c u then true else false.
Proof.
  destruct (Qlt_le_dec c u) as [Hlt|Hle]; [now apply Qltb_lt | now apply Qltb_ge].
Qed.

Lemma count_below_all_iff (cs : list Q) (u : Q) :
  count_below cs u = length cs <-> Forall (fun c => (c < u)%Q) cs.
Proof.
  induction cs as [|c cs IH]; [split; [constructor | reflexivity]|].
  rewrite count_below_cons. simpl length. pose proof (count_below_le cs u) as Hle.
  destruct (Qltb c u) eqn:Hc.
  - apply Qltb_lt in Hc. split.
    + intros Hn. constructor; [exact Hc | apply IH; lia].
    + intros Hall. inversion_clear Hall as [|? ? _ Hcs]. apply IH in Hcs. lia.
  - apply Qltb_ge in Hc. split; [lia|].
    intros Hall. inversion_clear Hall as [|? ? Hlt _]. lra.
Qed.

Lemma count_below_last (cs : list Q) (u c : Q) :
  last cs = Some c -> (u <= c)%Q -> count_below cs u < length cs.
Proof.
  intros Hlast Hu. pose proof (count_below_le cs u) as Hle.
  destruct (Nat.eq_dec (count_below cs u) (length cs)) as [Heq|]; [|lia].
  apply count_below_all_iff in Heq. rewrite Forall_forall in Heq.
  assert (Hin : c ∈ cs).
  { apply last_Some in Hlast as [l' ->]. apply elem_of_app. right.
    apply list_elem_of_singleton. reflexivity. }
  apply Heq in Hin. lra.
Qed.

Section CumsumFacts.
Context `{FloatFormat}.

Lemma length_cumsum_from (l : list Q) : forall acc, length (cumsum_from acc l) = length l.
Proof. induction l as [|x l IH]; intros acc; simpl; [reflexivity | now rewrite IH]. Qed.

(** The running sum of the code is the list of the left to right sums of
    the prefixes. *)
Lemma cumsum_from_prefixes (l : list Q) :
  forall acc,
    cumsum_from acc l
    = map (fun j => fold_left (fun a x => rnd (a + x)) (take (S j) l) acc)
          (seq 0 (length l)).
Proof.
  induction l as [|x l IH]; intros acc; [reflexivity|].
  simpl length. simpl seq. simpl map. simpl cumsum_from. f_equal.
  rewrite <- seq_shift, map_map. apply IH.
Qed.

Lemma cumsum_spec (row : list Q) : cumsum row = spec_cumulative_sums row.
Proof. apply cumsum_from_prefixes. Qed.

Lemma count_below_spec (row : list Q) (u : Q) :
  Z.of_nat (count_below (cumsum row) u) = spec_index row u.
Proof.
  unfold spec_index, count_below. rewrite cumsum_spec. do 2 f_equal.
  apply List.filter_ext. intros c. apply Qltb_dec.
Qed.

(** In a format that rounds nothing the count stays below the row length as
    soon as the total reaches the draw. *)
Lemma count_below_cumsum_lt (l : list Q) :
  (forall x, rnd x == x)%Q ->
  forall (acc u : Q),
    l <> [] -> (u <= acc + Qsum l)%Q ->
    count_below (cumsum_from acc l) u < length l.
Proof.
  intros Hid. induction l as [|x l IH]; intros acc u Hne Hu; [congruence|].
  simpl cumsum_from. rewrite count_below_cons. simpl length. unfold fadd.
  pose proof (Hid (acc + x)%Q) as Hx.
  destruct l as [|y l].
  - simpl in Hu |- *. unfold count_below; simpl.
    assert (Hf : Qltb (rnd (acc + x)) u = false) by (apply Qltb_ge; lra).
    rewrite Hf. lia.
  - assert (Hlt : count_below (cumsum_from (rnd (acc + x)) (y :: l)) u < length (y :: l)).
    { apply IH; [discriminate|].
      change (Qsum (x :: y :: l)) with (x + Qsum (y :: l))%Q in Hu. lra. }
    destruct (Qltb (rnd (acc + x)) u); lia.
Qed.

Lemma count_below_normalized (r : list Q) (u : Q) :
  (forall x, rnd x == x)%Q ->
  normalizedb r = true -> (u < 1)%Q -> count_below (cumsum r) u < length r.
Proof.
  intros Hid Hn Hu. destruct (normalizedb_sum r Hn) as [Hs Hne].
  apply count_below_cumsum_lt; [exact Hid | exact Hne | lra].
Qed.

End CumsumFacts.

Section SamplerFacts.
Context {G : Type} `{Generator G} `{FloatFormat}.

Lemma length_rand_draws (k : nat) : forall g : G, length (fst (rand_draws g k)) = k.
Proof.
  induction k as [|k IH]; intros g; simpl; [reflexivity|].
  destruct (uniform g) as [u g1]. specialize (IH g1).
  destruct (rand_draws g1 k) as [us g2]. simpl in *. now rewrite IH.
Qed.

Lemma rand_draws_range (k : nat) :
  forall g : G, Forall (fun u => (0 <= u /\ u < 1)%Q) (fst (rand_draws g k)).
Proof.
  induction k as [|k IH]; intros g; simpl; [constructor|].
  pose proof (uniform_range g) as Hr.
  destruct (uniform g) as [u g1]. specialize (IH g1).
  destruct (rand_draws g1 k) as [us g2]. simpl in *. constructor; assumption.
Qed.

(** The data of the index tensor, entry by entry. *)
Lemma sampler_entry (rng : G) (p : tensor Q) (n s b : nat) :
  s < n -> b < numel (batch_shape p) ->
  exists u,
    fst (rand_draws rng (n * numel (batch_shape p))) !! (s * numel (batch_shape p) + b)
      = Some u /\
    (0 <= u /\ u < 1)%Q /\
    data (fst (vectorized_random_choice rng p n)) !! (s * numel (batch_shape p) + b)
      = Some (Z.of_nat (count_below
                          (cumsum (row_at (last_dim p) (data p) b)) u)).
Proof.
  intros Hs Hb. set (B := numel (batch_shape p)) in *.
  unfold vectorized_random_choice, torch_rand.
  change (numel (n :: batch_shape p ++ [1])) with (n * numel (batch_shape p ++ [1])).
  rewrite numel_app_1. fold B.
  pose proof (length_rand_draws (n * B) rng) as Hlen.
  pose proof (rand_draws_range (n * B) rng) as Hrange.
  destruct (rand_draws rng (n * B)) as [d g']. simpl in Hlen, Hrange |- *.
  assert (Hin : s * B + b < length d) by (rewrite Hlen; nia).
  destruct (lookup_lt_is_Some_2 d _ Hin) as [u Hu].
  exists u. split; [exact Hu|]. split.
  { rewrite Forall_forall in Hrange. apply Hrange.
    eapply list_elem_of_lookup_2. exact Hu. }
  rewrite lookup_map.
  rewrite (lookup_flat_map_uniform _ B _ s b (row_at B d s)).
  - rewrite lookup_zip_with, lookup_map. unfold matrix_rows. fold B.
    rewrite lookup_rows_of by exact Hb. simpl.
    rewrite lookup_row_at by exact Hb. rewrite Hu. reflexivity.
  - apply List.Forall_forall. intros r Hr. unfold rows_of in Hr.
    apply in_map_iff in Hr as [i [<- Hi]]. apply in_seq in Hi.
    rewrite length_zip_with, length_map. unfold matrix_rows. fold B.
    rewrite length_rows_of, length_row_at; [lia | rewrite Hlen; nia].
  - apply lookup_rows_of. exact Hs.
  - exact Hb.
Qed.

Lemma sampler_length (rng : G) (p : tensor Q) (n : nat) :
  length (data (fst (vectorized_random_choice rng p n))) = n * numel (batch_shape p).
Proof.
  set (B := numel (batch_shape p)).
  unfold vectorized_random_choice, torch_rand.
  change (numel (n :: batch_shape p ++ [1])) with (n * numel (batch_shape p ++ [1])).
  rewrite numel_app_1. fold B.
  pose proof (length_rand_draws (n * B) rng) as Hlen.
  destruct (rand_draws rng (n * B)) as [d g']. simpl in Hlen |- *.
  rewrite length_map, (length_flat_map_uniform _ B), length_rows_of; [reflexivity|].
  apply List.Forall_forall. intros r Hr. unfold rows_of in Hr.
  apply in_map_iff in Hr as [i [<- Hi]]. apply in_seq in Hi.
  rewrite length_zip_with, length_map. unfold matrix_rows. fold B.
  rewrite length_rows_of, length_row_at; [lia | rewrite Hlen; nia].
Qed.

Lemma sampler_shape (rng : G) (p : tensor Q) (n : nat) :
  shape (fst (vectorized_random_choice rng p n)) = n :: batch_shape p.
Proof.
  unfold vectorized_random_choice. destruct (torch_rand _ _). reflexivity.
Qed.

End SamplerFacts.

Lemma one_hot_nonneg (j n : nat) : Forall (fun x => (0 <= x)%Q) (one_hot j n).
Proof.
  unfold one_hot. apply Forall_app. split; [|constructor].
  - apply Forall_replicate. lra.
  - lra.
  - apply Forall_replicate. lra.
Qed.

Lemma length_one_hot (j n : nat) : j < n -> length (one_hot j n) = n.
Proof.
  intros Hj. unfold one_hot. rewrite length_app. simpl. rewrite !length_replicate. lia.
Qed.

Section RoundedFacts.
Context `{RoundingLaws}.

Lemma rnd_proper (x y : Q) : (x == y)%Q -> (rnd x == rnd y)%Q.
Proof. intros Hxy. apply Qle_antisym; apply rnd_monotone; lra. Qed.

(** Adding a non negative number does not take the running sum down. *)
Lemma fadd_lower (acc x : Q) :
  (rnd acc == acc)%Q -> (0 <= x)%Q ->
  (acc <= fadd acc x)%Q /\ (rnd (fadd acc x) == fadd acc x)%Q.
Proof.
  intros Hacc Hx. unfold fadd. split; [|apply rnd_idempotent].
  assert (Hm : (rnd acc <= rnd (acc + x))%Q) by (apply rnd_monotone; lra). lra.
Qed.

Lemma fadd_zero (acc : Q) : (rnd acc == acc)%Q -> (fadd acc 0 == acc)%Q.
Proof.
  intros Hacc. unfold fadd.
  assert (Hp : (rnd (acc + 0) == rnd acc)%Q) by (apply rnd_proper; lra). lra.
Qed.

Lemma count_below_none (u : Q) (l : list Q) :
  forall acc : Q,
    (rnd acc == acc)%Q -> (u <= acc)%Q -> Forall (fun x => (0 <= x)%Q) l ->
    count_below (cumsum_from acc l) u = 0.
Proof.
  induction l as [|x l IH]; intros acc Hrep Hacc Hpos; [reflexivity|].
  inversion_clear Hpos as [|? ? Hx Hl]. simpl cumsum_from.
  rewrite count_below_cons. destruct (fadd_lower acc x Hrep Hx) as [Hlow Hrep'].
  assert (Hf : Qltb (fadd acc x) u = false) by (apply Qltb_ge; lra).
  rewrite Hf. simpl. apply IH; [exact Hrep' | lra | exact Hl].
Qed.

Lemma count_below_zeros (u : Q) (l : list Q) (j : nat) :
  forall acc : Q,
    (acc == 0)%Q -> (0 < u)%Q ->
    exists acc', (acc' == 0)%Q /\
      count_below (cumsum_from acc (replicate j 0%Q ++ l)) u
      = j + count_below (cumsum_from acc' l) u.
Proof.
  induction j as [|j IH]; intros acc Hacc Hu.
  - exists acc. split; [exact Hacc | reflexivity].
  - simpl replicate. simpl app. simpl cumsum_from. rewrite count_below_cons.
    assert (Hz : (fadd acc 0 == 0)%Q).
    { unfold fadd. pose proof rnd_zero as Hr0.
      assert (Hp : (rnd (acc + 0) == rnd 0)%Q) by (apply rnd_proper; lra). lra. }
    assert (Ht : Qltb (fadd acc 0) u = true) by (apply Qltb_lt; lra).
    rewrite Ht. destruct (IH (fadd acc 0)) as [acc' [Hacc' Heq]]; [exact Hz | exact Hu |].
    exists acc'. split; [exact Hacc'|]. rewrite Heq. lia.
Qed.

(** With a draw above zero the count on a one-hot row is the hot index. *)
Lemma one_hot_positive_draw (j n : nat) (u : Q) :
  (0 < u)%Q -> (u < 1)%Q -> count_below (cumsum (one_hot j n)) u = j.
Proof.
  intros Hpos Hlt. unfold cumsum, one_hot.
  destruct (count_below_zeros u (1%Q :: replicate (n - j - 1) 0%Q) j 0%Q)
    as [acc' [Hacc' Heq]]; [lra | exact Hpos |].
  rewrite Heq. simpl cumsum_from. rewrite count_below_cons.
  assert (Hone : (fadd acc' 1 == 1)%Q).
  { unfold fadd. pose proof rnd_one as Hr1.
    assert (Hp : (rnd (acc' + 1) == rnd 1)%Q) by (apply rnd_proper; lra). lra. }
  assert (Hf : Qltb (fadd acc' 1) u = false) by (apply Qltb_ge; lra).
  rewrite Hf, count_below_none; [lia | apply rnd_idempotent | lra |].
  apply Forall_replicate; lra.
Qed.

(** With the draw zero the count is zero, whatever the hot index. *)
Lemma one_hot_zero_draw (j n : nat) (u : Q) :
  (u == 0)%Q -> count_below (cumsum (one_hot j n)) u = 0.
Proof.
  intros Hu. unfold cumsum.
  apply count_below_none; [apply rnd_zero | lra | apply one_hot_nonneg].
Qed.

End RoundedFacts.

Section SamplerClaims.
Context {G : Type} `{Generator G} `{RoundingLaws}.

(** The sampler on a single row and a single sample. *)
Lemma sampler_one_row (rng : G) (row : list Q) :
  data (fst (vectorized_random_choice rng (mkTensor [1; length row] row) 1))
  = [Z.of_nat (count_below (cumsum row) (fst (uniform rng)))].
Proof.
  unfold vectorized_random_choice, torch_rand, matrix_rows, batch_shape, last_dim.
  simpl. destruct (uniform rng) as [u g1]. simpl.
  unfold rows_of, row_at. simpl. rewrite !drop_0, firstn_all. reflexivity.
Qed.

(** C3 (the code at the failing input): on the row that puts probability one
    on index [j > 0], a generator whose next draw is exactly [0] makes the
    sampler return index [0], not [j]. *)
Theorem C3_zero_draw_returns_index_0 (rng : G) (j n : nat) :
  0 < j < n -> (fst (uniform rng) == 0)%Q ->
  normalized_tensor (mkTensor [1; n] (one_hot j n)) = true /\
  data (fst (vectorized_random_choice rng (mkTensor [1; n] (one_hot j n)) 1)) = [0%Z] /\
  [0%Z] <> [Z.of_nat j].
Proof.
  intros Hj Hu.
  pose proof (length_one_hot j n (proj2 Hj)) as Hlen. split; [|split].
  - unfold normalized_tensor, matrix_rows, batch_shape, last_dim. simpl.
    rewrite Hlen. replace (n * 1 + 0) with n by lia. rewrite Nat.eqb_refl.
    unfold row_at. simpl. rewrite drop_0, take_ge by lia.
    rewrite andb_true_r. unfold normalizedb. apply andb_true_intro. split.
    + apply forallb_forall. intros x Hx. apply Qle_bool_iff.
      pose proof (one_hot_nonneg j n) as Hnn. rewrite List.Forall_forall in Hnn.
      now apply Hnn.
    + apply Qeq_bool_iff. unfold one_hot. clear.
      generalize (n - j - 1). induction j as [|j IH]; intros k.
      * simpl. induction k as [|k IHk]; simpl in *; lra.
      * simpl. specialize (IH k). simpl in IH. lra.
  - rewrite <- Hlen at 1. rewrite sampler_one_row, one_hot_zero_draw by exact Hu.
    reflexivity.
  - intros Heq. injection Heq. lia.
Qed.

End SamplerClaims.

Lemma C3_zero_draw_returns_index_0_witness :
  (0 < 1 < 2 /\ (fst (uniform (lcg_seed 0)) == 0)%Q) /\
  data (fst (vectorized_random_choice (lcg_seed 0) (mkTensor [1; 2] (one_hot 1 2)) 1))
  = [0%Z].
Proof.
  assert (Hj : 0 < 1 < 2) by lia.
  assert (Hu : (fst (uniform (lcg_seed 0)) == 0)%Q) by reflexivity.
  split; [split; assumption|].
  exact (proj1 (proj2 (C3_zero_draw_returns_index_0 (lcg_seed 0) 1 2 Hj Hu))).
Defined.

Lemma count_below_Qeq (cs : list Q) (u u' : Q) :
  (u == u')%Q -> count_below cs u = count_below cs u'.
Proof.
  intros Hu. induction cs as [|c cs IH]; [reflexivity|].
  rewrite !count_below_cons, IH. f_equal.
  destruct (Qltb c u) eqn:Hc, (Qltb c u') eqn:Hc'; try reflexivity.
  - apply Qltb_lt in Hc. apply Qltb_ge in Hc'. lra.
  - apply Qltb_ge in Hc. apply Qltb_lt in Hc'. lra.
Qed.

Section RoundedSampler.
Context {G : Type} `{Generator G}.

(** C2 (the code at the failing input): the six numbers of [rounding_row]
    are binary64 numbers, non negative, and add up to one; added from the
    left in binary64 the four small ones are rounded away and the running
    sum ends at [1 - 2^-52]. With the draw [1 - 2^-53], the largest binary64
    number below one, all six running sums are below the draw and the
    sampler returns the index 6, the size of the vocabulary, not an index
    of [0, 6). *)
Theorem C2_rounded_cumsum_returns_vocab (rng : G) :
  (fst (uniform rng) == 9007199254740991 # 9007199254740992)%Q ->
  normalized_tensor (mkTensor [1; 6] rounding_row) = true /\
  Forall (fun x => (@rnd binary64 x == x)%Q) rounding_row /\
  last_dim (mkTensor [1; 6] rounding_row) = 6 /\
  data (fst (@vectorized_random_choice G _ binary64 rng
               (mkTensor [1; 6] rounding_row) 1)) = [6%Z].
Proof.
  intros Hu. split; [reflexivity|]. split.
  { repeat constructor; vm_compute; reflexivity. }
  split; [reflexivity|].
  change (mkTensor [1; 6] rounding_row)
    with (mkTensor [1; length rounding_row] rounding_row).
  rewrite (@sampler_one_row G _ binary64 rng rounding_row).
  rewrite (count_below_Qeq _ _ _ Hu). vm_compute. reflexivity.
Qed.

End RoundedSampler.

Lemma C2_rounded_cumsum_returns_vocab_witness :
  (fst (@uniform _ replay_generator [9007199254740991%Z])
   == 9007199254740991 # 9007199254740992)%Q /\
  data (fst (@vectorized_random_choice _ replay_generator binary64
               [9007199254740991%Z] (mkTensor [1; 6] rounding_row) 1)) = [6%Z].
Proof.
  assert (Hu : (fst (@uniform _ replay_generator [9007199254740991%Z])
                == 9007199254740991 # 9007199254740992)%Q) by reflexivity.
  split; [exact Hu|].
  exact (proj2 (proj2 (proj2
    (@C2_rounded_cumsum_returns_vocab _ replay_generator [9007199254740991%Z] Hu)))).
Defined.

(** The running sums of [rounding_row] in binary64 and in exact arithmetic. *)
Example rounding_row_cumsum :
  @cumsum binary64 rounding_row
  = [1 # 2; 1 # 2; 1 # 2; 1 # 2; 1 # 2; 4503599627370495 # 4503599627370496]%Q /\
  (Qsum rounding_row == 1)%Q.
Proof. split; vm_compute; reflexivity. Qed.

(** C9 as stated fails: on the row [1/5, 1/5], which does not sum to one, and
    the draw [1/2] the sampler raises nothing and returns the index [2], one
    past the last category. *)
Lemma C9_unnormalized_returns :
  let p := mkTensor [1; 2] [1 # 5; 1 # 5]%Q in
  let g := lcg_seed 1073741824 in
  normalized_tensor p = false /\
  (exists g', sampler_call g p 1 = Ok (mkTensor [1; 1] [2%Z], g')) /\
  ~ (exists e, sampler_call g p 1 = Raise e).
Proof.
  intros p g. split; [reflexivity|]. split.
  - eexists. vm_compute. reflexivity.
  - intros [e He]. discriminate He.
Qed.

Section SamplerTotal.
Context {G : Type} `{Generator G} `{FloatFormat}.

(** The entry of the index tensor for sample [s] and row [b], by the
    counting rule of the specification. *)
Lemma sampler_entry_spec (rng : G) (p : tensor Q) (n s b : nat) :
  tensor_wf p -> s < n -> b < numel (batch_shape p) ->
  exists (u : Q) (row : list Q),
    fst (rand_draws rng (n * numel (batch_shape p))) !! (s * numel (batch_shape p) + b)
      = Some u /\
    (0 <= u /\ u < 1)%Q /\
    matrix_rows p !! b = Some row /\
    length row = last_dim p /\
    data (fst (vectorized_random_choice rng p n)) !! (s * numel (batch_shape p) + b)
      = Some (spec_index row u).
Proof.
  intros Hwf Hs Hb.
  destruct (sampler_entry rng p n s b Hs Hb) as [u [Hu [Hur Hidx]]].
  exists u, (row_at (last_dim p) (data p) b).
  split; [exact Hu|]. split; [exact Hur|].
  split; [apply lookup_rows_of; exact Hb|]. split.
  - apply length_row_at. unfold tensor_wf in Hwf.
    rewrite Hwf, (numel_split (shape p)). fold (batch_shape p) (last_dim p). nia.
  - rewrite Hidx, count_below_spec. reflexivity.
Qed.

Lemma spec_index_range (row : list Q) (u : Q) :
  (0 <= spec_index row u <= Z.of_nat (length row))%Z /\
  (spec_index row u = Z.of_nat (length row)
   <-> Forall (fun c => (c < u)%Q) (spec_cumulative_sums row)).
Proof.
  rewrite <- count_below_spec, <- cumsum_spec.
  pose proof (count_below_le (cumsum row) u) as Hle.
  pose proof (count_below_all_iff (cumsum row) u) as Hall.
  unfold cumsum in Hle, Hall. rewrite length_cumsum_from in Hle, Hall.
  fold (cumsum row) in Hle, Hall. split; [lia|].
  rewrite <- Hall. lia.
Qed.

(** In a format that rounds nothing the range of the claim C2 holds: on a
    tensor of normalized rows every index is below the size of the
    vocabulary. *)
Lemma exact_sampler_in_range (rng : G) (p : tensor Q) (n s b : nat) :
  (forall x, rnd x == x)%Q ->
  normalized_tensor p = true -> s < n -> b < numel (batch_shape p) ->
  exists i : Z,
    data (fst (vectorized_random_choice rng p n)) !! (s * numel (batch_shape p) + b)
    = Some i /\ (0 <= i < Z.of_nat (last_dim p))%Z.
Proof.
  intros Hid Hnorm Hs Hb.
  apply andb_prop in Hnorm as [Hwf Hrows]. apply Nat.eqb_eq in Hwf.
  destruct (sampler_entry rng p n s b Hs Hb) as [u [Hu [Hur Hidx]]].
  eexists. split; [exact Hidx|].
  assert (Hrow : matrix_rows p !! b = Some (row_at (last_dim p) (data p) b))
    by (apply lookup_rows_of; exact Hb).
  assert (Hlen : length (row_at (last_dim p) (data p) b) = last_dim p).
  { apply length_row_at. rewrite Hwf, (numel_split (shape p)).
    fold (batch_shape p) (last_dim p). nia. }
  rewrite forallb_forall in Hrows.
  assert (Hn : normalizedb (row_at (last_dim p) (data p) b) = true).
  { apply Hrows. apply list_elem_of_In. eapply list_elem_of_lookup_2. exact Hrow. }
  pose proof (count_below_normalized _ u Hid Hn (proj2 Hur)) as Hc.
  rewrite Hlen in Hc. lia.
Qed.

(** C9 (amended): whatever the tensor [p], normalized or not, the sampler
    raises nothing. It returns an index tensor of shape
    [(n,) + p.shape[:-1]] whose entry for sample [s] and row [b] is given by
    the counting rule: the number of cumulative sums of row [b] strictly
    below the draw made for [(s, b)]. Every entry lies between [0] and
    [vocab], and it is [vocab] exactly when every cumulative sum of the row
    is below the draw. *)
Theorem C9_sampler_never_raises (rng : G) (p : tensor Q) (n : nat) :
  tensor_wf p ->
  exists (idx : tensor Z) (rng' : G),
    sampler_call rng p n = Ok (idx, rng') /\
    shape idx = n :: batch_shape p /\
    length (data idx) = n * numel (batch_shape p) /\
    forall s b, s < n -> b < numel (batch_shape p) ->
      exists (u : Q) (row : list Q),
        fst (rand_draws rng (n * numel (batch_shape p)))
          !! (s * numel (batch_shape p) + b) = Some u /\
        (0 <= u /\ u < 1)%Q /\
        matrix_rows p !! b = Some row /\
        length row = last_dim p /\
        data idx !! (s * numel (batch_shape p) + b) = Some (spec_index row u) /\
        (0 <= spec_index row u <= Z.of_nat (last_dim p))%Z /\
        (spec_index row u = Z.of_nat (last_dim p)
         <-> Forall (fun c => (c < u)%Q) (spec_cumulative_sums row)).
Proof.
  intros Hwf.
  exists (fst (vectorized_random_choice rng p n)), (snd (vectorized_random_choice rng p n)).
  split; [unfold sampler_call; now rewrite <- surjective_pairing|].
  split; [apply sampler_shape|]. split; [apply sampler_length|].
  intros s b Hs Hb.
  destruct (sampler_entry_spec rng p n s b Hwf Hs Hb)
    as (u & row & Hu & Hur & Hrow & Hlen & Hidx).
  exists u, row. rewrite <- Hlen. pose proof (spec_index_range row u) as [Hr Hiff].
  repeat split; try assumption; try tauto; lia.
Qed.

End SamplerTotal.

Lemma C9_sampler_never_raises_witness :
  tensor_wf (mkTensor [1; 2] [1 # 5; 1 # 5]%Q) /\
  exists (idx : tensor Z) (rng' : Z),
    sampler_call (lcg_seed 1073741824) (mkTensor [1; 2] [1 # 5; 1 # 5]%Q) 1
    = Ok (idx, rng') /\
    shape idx = [1; 1].
Proof.
  assert (Hwf : tensor_wf (mkTensor [1; 2] [1 # 5; 1 # 5]%Q)) by reflexivity.
  split; [exact Hwf|].
  destruct (C9_sampler_never_raises (lcg_seed 1073741824)
              (mkTensor [1; 2] [1 # 5; 1 # 5]%Q) 1 Hwf)
    as (idx & rng' & Hcall & Hshape & _).
  exists idx, rng'. split; [exact Hcall | exact Hshape].
Defined.

(** ** Boolean masks *)

Lemma length_select {A : Type} (mask : list bool) :
  forall x : list A, length mask = length x -> length (select mask x) = count_true mask.
Proof.
  induction mask as [|b m IH]; intros [|a t] Hlen; simpl in *;
    try discriminate; try reflexivity.
  unfold count_true. simpl. destruct b; simpl; rewrite IH by lia; reflexivity.
Qed.

Lemma length_scatter {A : Type} (mask : list bool) :
  forall x v : list A, length (scatter mask x v) = length x.
Proof.
  induction mask as [|b m IH]; intros [|a t] v; simpl; try reflexivity.
  destruct b; [destruct v|]; simpl; now rewrite IH.
Qed.

Lemma scatter_lookup_false {A : Type} (mask : list bool) :
  forall (x v : list A) (i : nat),
    mask !! i = Some false -> scatter mask x v !! i = x !! i.
Proof.
  induction mask as [|b m IH]; intros [|a t] v i Hi; simpl; try reflexivity.
  destruct i as [|i]; simpl in Hi.
  - injection Hi as ->. reflexivity.
  - destruct b; [destruct v|]; simpl; now apply IH.
Qed.

Lemma Forall_scatter {A : Type} (P : A -> Prop) (mask : list bool) :
  forall x v : list A, Forall P x -> Forall P v -> Forall P (scatter mask x v).
Proof.
  induction mask as [|b m IH]; intros [|a t] v Hx Hv; simpl; try assumption.
  inversion_clear Hx as [|? ? Ha Ht].
  destruct b; [destruct v as [|w v']|].
  - constructor; [exact Ha | apply IH; [exact Ht | constructor]].
  - inversion_clear Hv as [|? ? Hw Hv']. constructor; [exact Hw | now apply IH].
  - constructor; [exact Ha | now apply IH].
Qed.

Lemma mask_select_Ok {A : Type} (x : list A) (mask : list bool) (y : list A) :
  mask_select x mask = Ok y ->
  length mask = length x /\ y = select mask x /\ length y = count_true mask.
Proof.
  unfold mask_select. destruct (length mask =? length x) eqn:Hlen; [|discriminate].
  apply Nat.eqb_eq in Hlen. intros Hy. injection Hy as <-.
  split; [exact Hlen|]. split; [reflexivity | now apply length_select].
Qed.

(** [x[mask] = v] keeps the length and every row outside the mask; the rows
    written are rows of [v]. *)
Lemma index_put_Ok {A : Type} (x : list A) (mask : list bool) (v x' : list A) :
  index_put x mask v = Ok x' ->
  length mask = length x /\
  length x' = length x /\
  (forall i, mask !! i = Some false -> x' !! i = x !! i) /\
  (forall P : A -> Prop, Forall P x -> Forall P v -> Forall P x') /\
  (length v = count_true mask -> x' = scatter mask x v).
Proof.
  unfold index_put. destruct (length mask =? length x) eqn:Hlen; [|discriminate].
  apply Nat.eqb_eq in Hlen.
  destruct (length v =? count_true mask) eqn:Hv.
  - intros Hx. injection Hx as <-. split; [exact Hlen|].
    split; [apply length_scatter|]. split; [intros; now apply scatter_lookup_false|].
    split; [intros; now apply Forall_scatter | reflexivity].
  - apply Nat.eqb_neq in Hv.
    destruct v as [|w [|w' v]]; try discriminate.
    intros Hx. injection Hx as <-. split; [exact Hlen|].
    split; [apply length_scatter|]. split; [intros; now apply scatter_lookup_false|].
    split; [|intros Hc; contradiction].
    intros P Hx Hw. apply Forall_scatter; [exact Hx|].
    apply Forall_replicate. now inversion Hw.
Qed.

Lemma count_true_scatter_negb (fin : list bool) :
  forall v : list bool,
    length v = count_true (map negb fin) ->
    count_true (map negb (scatter (map negb fin) fin v)) = count_true (map negb v).
Proof.
  unfold count_true.
  induction fin as [|b fin IH]; intros v Hv; simpl in *.
  - destruct v; [reflexivity | discriminate].
  - destruct b; simpl in *.
    + now apply IH.
    + destruct v as [|w v]; [discriminate|]. simpl in *.
      destruct w; simpl; rewrite IH by lia; reflexivity.
Qed.

Lemma mapM_Ok {A B : Type} (f : A -> result B) (l : list A) :
  forall l', mapM f l = Ok l' -> Forall2 (fun a b => f a = Ok b) l l'.
Proof.
  induction l as [|a l IH]; simpl; intros l' Hl.
  - injection Hl as <-. constructor.
  - apply bind_Ok in Hl as [b [Hb Hl]]. apply bind_Ok in Hl as [bs [Hbs Hl]].
    injection Hl as <-. constructor; [exact Hb | now apply IH].
Qed.

Lemma prune_kv_rows {KVRow : Type} (pkv kv : KVCache KVRow) (flags : list bool) :
  prune_kv pkv flags = Ok kv ->
  Forall (Forall (fun vv => length vv = count_true (map negb flags))) kv.
Proof.
  unfold prune_kv. intros Hp. apply mapM_Ok in Hp.
  induction Hp as [|v v' pkv kv Hv _ IH]; constructor; [|exact IH].
  apply mapM_Ok in Hv. clear IH.
  induction Hv as [|vv vv' v v' Hvv _ IH]; constructor; [|exact IH].
  apply mask_select_Ok in Hvv. tauto.
Qed.

Lemma lookup_map_negb_true (fin : list bool) (i : nat) :
  fin !! i = Some true -> map negb fin !! i = Some false.
Proof. intros Hi. now rewrite lookup_map, Hi. Qed.

(** The rows selected by a mask are the rows at the selected indices. *)
Lemma select_indices {A : Type} (mask : list bool) :
  forall (x : list A) (k : nat),
    length mask = length x ->
    Forall2 (fun i r => k <= i /\ x !! (i - k) = Some r)
            (select mask (seq k (length mask))) (select mask x).
Proof.
  induction mask as [|b m IH]; intros [|a t] k Hlen; simpl in *; try discriminate;
    [constructor|].
  assert (Htail : Forall2 (fun i r => k <= i /\ (a :: t) !! (i - k) = Some r)
                          (select m (seq (S k) (length m))) (select m t)).
  { eapply Forall2_impl; [apply (IH t (S k)); lia|].
    intros i r [Hi Hr]. split; [lia|].
    replace (i - k) with (S (i - S k)) by lia. exact Hr. }
  destruct b; [constructor|]; try exact Htail.
  split; [lia|]. now rewrite Nat.sub_diag.
Qed.

Lemma select_not_in (mask : list bool) :
  forall (k i : nat),
    mask !! i = Some false -> (k + i) ∉ select mask (seq k (length mask)).
Proof.
  induction mask as [|b m IH]; intros k i Hi; simpl; [apply not_elem_of_nil|].
  assert (Hge : forall j n, j ∈ select m (seq (S k) n) -> S k <= j).
  { clear. intros j n. revert k n. induction m as [|b m IH]; intros k [|n] Hj; simpl in Hj;
      try (now apply elem_of_nil in Hj).
    destruct b; [apply elem_of_cons in Hj as [->|Hj]; [lia|]|];
      apply IH in Hj; lia. }
  destruct i as [|i]; simpl in Hi.
  - injection Hi as ->. rewrite Nat.add_0_r. intros Hin. apply Hge in Hin. lia.
  - replace (k + S i) with (S k + i) by lia.
    destruct b; [rewrite not_elem_of_cons; split; [lia|]|]; now apply IH.
Qed.

(** ** One pass through the loop body *)

Lemma length_expand_attention_mask (m : list (list Z)) :
  length (expand_attention_mask m) = length m.
Proof.
  unfold expand_attention_mask. rewrite length_zip_with, length_replicate. lia.
Qed.

Lemma expand_attention_mask_map (m : list (list Z)) :
  expand_attention_mask m = map (fun r => r ++ [1%Z]) m.
Proof.
  unfold expand_attention_mask. induction m as [|r m IH]; simpl; [reflexivity|].
  now rewrite IH.
Qed.

Lemma concat_cols_Ok {A : Type} (a b c : list (list A)) :
  concat_cols a b = Ok c -> length a = length b /\ c = zip_with app a b.
Proof.
  unfold concat_cols. destruct (length a =? length b) eqn:Hlen; [|discriminate].
  apply Nat.eqb_eq in Hlen. intros Hc. injection Hc as <-. tauto.
Qed.

Section BodyFacts.
Context {G : Type} `{Generator G} `{Functional} `{FloatFormat} {KVRow : Type}.

Lemma step_Ok (self : Sequence KVRow) (g : G) (npt : nat)
    (toks mask : list (list Z)) (pkv : option (KVCache KVRow))
    (next : tensor Z) (probs : tensor Q) (pkv' : option (KVCache KVRow)) (g' : G) :
  step self g npt toks mask 1 pkv = Ok (next, probs, pkv', g') ->
  pkv' = snd (forward (model self) toks mask pkv) /\
  shape next = [1; length toks; 1] /\
  length (data next) = length toks.
Proof.
  unfold step. destruct (forward (model self) toks mask pkv) as [probs0 pkv0].
  set (pr := softmax (create_proposal self (map (drop npt) toks) probs0)).
  destruct (decide (batch_shape pr = [length toks])) as [Hshape|]; [|discriminate].
  pose proof (sampler_shape g pr 1) as Hs.
  pose proof (sampler_length g pr 1) as Hl.
  destruct (vectorized_random_choice g pr 1) as [idx g1]. simpl in Hs, Hl.
  intros Hok. injection Hok as <- _ <- _. simpl.
  rewrite Hs, Hl, Hshape. simpl. split; [reflexivity|]. split; [reflexivity | lia].
Qed.

Lemma sampled_column_rows (next : tensor Z) (n : nat) :
  shape next = [1; n; 1] -> length (data next) = n ->
  Forall (fun r => length r = 1) (matrix_rows (squeeze0 next)).
Proof.
  intros Hs Hl. unfold squeeze0. rewrite Hs. unfold matrix_rows, batch_shape, last_dim.
  simpl. apply List.Forall_forall. intros r Hr. unfold rows_of in Hr.
  apply in_map_iff in Hr as [i [<- Hi]]. apply in_seq in Hi.
  apply length_row_at. lia.
Qed.

Lemma loop_body_pass (self : Sequence KVRow) (batch_size npt : nat)
    (st st' : @state G KVRow) :
  loop_body self batch_size npt st = Ok st' -> pass self batch_size npt st st'.
Proof.
  unfold loop_body. intros Hb.
  apply bind_Ok in Hb as [utok [Hutok Hb]].
  apply bind_Ok in Hb as [umask [Humask Hb]].
  apply bind_Ok in Hb as [[[[unext probs] pkv'] g'] [Hstep Hb]].
  apply bind_Ok in Hb as [next [Hnext Hb]].
  apply bind_Ok in Hb as [toks' [Htoks' Hb]].
  apply bind_Ok in Hb as [active [Hactive Hb]].
  apply bind_Ok in Hb as [flags [Hflags Hb]].
  apply bind_Ok in Hb as [fin' [Hfin' Hb]].
  apply bind_Ok in Hb as [kv' [Hkv' Hb]].
  injection Hb as <-.
  apply mask_select_Ok in Hutok as [Hlt [-> _]].
  apply mask_select_Ok in Humask as [Hlm [-> _]].
  apply mask_select_Ok in Hactive as [_ [-> _]].
  apply step_Ok in Hstep as [Hpkv' [Hshape Hdata]].
  apply concat_cols_Ok in Htoks' as [Hlen' ->].
  pose proof (index_put_Ok _ _ _ _ Hnext) as [Hmn [Hln [Hkeep [Hall _]]]].
  rewrite length_map in Hlt, Hlm. rewrite length_replicate in Hln.
  assert (Hret : snd (forward_ret self st) = pkv').
  { unfold forward_ret, forward_args. now rewrite Hpkv'. }
  apply (mkPass self batch_size npt st _ next flags);
    cbn [token_ids attention_mask finished unfinished_past_key_values];
    try assumption; try lia; try reflexivity.
  - apply Hall; [apply Forall_replicate; reflexivity|].
    eapply sampled_column_rows; eassumption.
  - intros i Hi. rewrite Hkeep by now apply lookup_map_negb_true.
    apply lookup_replicate_2.
    apply lookup_lt_Some in Hi. rewrite length_map, length_replicate in Hmn. lia.
  - rewrite Hret. intros Hf.
    destruct pkv' as [[|v kv0]|]; try discriminate; now injection Hkv' as <-.
  - rewrite Hret. intros Ht.
    destruct pkv' as [[|v kv0]|]; try discriminate.
    apply bind_Ok in Hkv' as [kv [Hkv Hk]]. injection Hk as <-.
    exists (v :: kv0), kv. tauto.
Qed.

End BodyFacts.

(** ** Invariants of the loop *)

Section LoopFacts.
Context {G : Type} `{Generator G} `{Functional} `{FloatFormat} {KVRow : Type}.
Variable self : Sequence KVRow.
Variables batch_size npt : nat.

#[local] Notation "st1 '-[' k ']->' st2" := (iterates self batch_size npt k st1 st2)
  (at level 70, no associativity).

Lemma Forall_zip_with_app {A : Type} (a b : list (list A)) (c d : nat) :
  Forall (fun r => length r = c) a -> Forall (fun r => length r = d) b ->
  Forall (fun r => length r = c + d) (zip_with app a b).
Proof.
  intros Ha. revert b. induction Ha as [|r a Hr _ IH]; intros b Hb; [constructor|].
  destruct Hb as [|q b Hq Hb]; simpl; [constructor|].
  constructor; [rewrite length_app; lia | now apply IH].
Qed.

Lemma pass_shaped (cols : nat) (st st' : @state G KVRow) :
  shaped batch_size cols st -> pass self batch_size npt st st' ->
  shaped batch_size (S cols) st'.
Proof.
  intros [Ht [Hm0 [Hf [Hrt Hrm]]]] [next flags _ _ Hnl Hnb Hnw _ Htok Hmask _ Hfin _ _].
  apply index_put_Ok in Hfin as [_ [Hfl _]].
  unfold shaped. rewrite Htok, Hmask, length_zip_with, length_expand_attention_mask.
  repeat split; try lia.
  - rewrite <- Nat.add_1_r. now apply Forall_zip_with_app.
  - rewrite expand_attention_mask_map, <- Nat.add_1_r.
    apply Forall_map. eapply Forall_impl; [exact Hrm|].
    intros r Hr. simpl in Hr |- *. rewrite length_app. simpl. lia.
Qed.

Lemma iterates_shaped (k : nat) (st st' : @state G KVRow) :
  st -[k]-> st' ->
  forall cols, shaped batch_size cols st -> shaped batch_size (cols + k) st'.
Proof.
  induction 1 as [st|k st st1 st2 _ Hbody _ IH]; intros cols Hs.
  - now rewrite Nat.add_0_r.
  - replace (cols + S k) with (S cols + k) by lia. apply IH.
    eapply pass_shaped; [exact Hs | now apply loop_body_pass].
Qed.

Lemma iterates_snoc (k : nat) (st st1 st2 : @state G KVRow) :
  st -[k]-> st1 ->
  loop_done self npt st1 = false -> loop_body self batch_size npt st1 = Ok st2 ->
  st -[S k]-> st2.
Proof.
  induction 1 as [st|k st sta stb Hd Hb _ IH]; intros Hd' Hb'.
  - eapply iterates_S; [exact Hd' | exact Hb' | constructor].
  - eapply iterates_S; [exact Hd | exact Hb | now apply IH].
Qed.

(** A run of the loop that returns has gone through finitely many passes. *)
Lemma generate_iterates (fuel : nat) :
  forall st st' : @state G KVRow,
    generate fuel self batch_size npt st = Some (Ok st') ->
    exists k, st -[k]-> st' /\ k <= fuel /\ loop_done self npt st' = true.
Proof.
  induction fuel as [|fuel IH]; intros st st'; simpl;
    destruct (loop_done self npt st) eqn:Hd; intros Hg; try discriminate.
  - injection Hg as <-. exists 0. split; [constructor | split; [lia | exact Hd]].
  - injection Hg as <-. exists 0. split; [constructor | split; [lia | exact Hd]].
  - destruct (loop_body self batch_size npt st) as [st1|e] eqn:Hb; [|discriminate].
    destruct (IH _ _ Hg) as [k [Hk [Hle Hdone]]]. exists (S k).
    split; [eapply iterates_S; eassumption | split; [lia | exact Hdone]].
Qed.

(** While the loop goes on, the token budget is not used up. *)
Lemma loop_done_budget (m : Z) (j : nat) (st : @state G KVRow) :
  max_tokens self = Some m ->
  shaped batch_size (npt + j) st ->
  loop_done self npt st = false -> Z.of_nat j <> m.
Proof.
  intros Hm [Ht [_ [Hf [Hrt _]]]] Hd. unfold loop_done in Hd. rewrite Hm in Hd.
  apply orb_false_elim in Hd as [Hall Hne]. apply Z.eqb_neq in Hne.
  destruct (token_ids st) as [|r rows].
  - simpl in Ht. subst batch_size. destruct (finished st); [discriminate | discriminate].
  - inversion_clear Hrt as [|? ? Hr _]. simpl in Hne. lia.
Qed.

Lemma iterates_budget (m : Z) (k : nat) (st st' : @state G KVRow) :
  max_tokens self = Some m ->
  st -[k]-> st' ->
  forall j, shaped batch_size (npt + j) st -> (Z.of_nat j <= m)%Z ->
    (Z.of_nat (j + k) <= m)%Z.
Proof.
  intros Hm. induction 1 as [st|k st st1 st2 Hd Hb _ IH]; intros j Hs Hj.
  - now rewrite Nat.add_0_r.
  - pose proof (loop_done_budget m j st Hm Hs Hd) as Hne.
    replace (j + S k) with (S j + k) by lia. apply IH; [|lia].
    replace (npt + S j) with (S (npt + j)) by lia.
    eapply pass_shaped; [exact Hs | now apply loop_body_pass].
Qed.

Lemma generate_terminates (m : Z) (fuel : nat) :
  max_tokens self = Some m ->
  forall (j : nat) (st : @state G KVRow),
    shaped batch_size (npt + j) st -> (Z.of_nat j <= m)%Z ->
    (m <= Z.of_nat (j + fuel))%Z ->
    generate fuel self batch_size npt st <> None.
Proof.
  intros Hm. induction fuel as [|fuel IH]; intros j st Hs Hj Hfuel; simpl;
    destruct (loop_done self npt st) eqn:Hd; try discriminate.
  - pose proof (loop_done_budget m j st Hm Hs Hd). lia.
  - pose proof (loop_done_budget m j st Hm Hs Hd) as Hne.
    destruct (loop_body self batch_size npt st) as [st1|e] eqn:Hb; [|discriminate].
    apply (IH (S j)); [|lia|lia].
    replace (npt + S j) with (S (npt + j)) by lia.
    eapply pass_shaped; [exact Hs | now apply loop_body_pass].
Qed.

(** Every row only grows, by one token per pass. *)
Lemma iterates_row_grows (k : nat) (st st' : @state G KVRow) :
  st -[k]-> st' ->
  forall i r, token_ids st !! i = Some r ->
    exists g, token_ids st' !! i = Some (r ++ g) /\ length g = k.
Proof.
  induction 1 as [st|k st st1 st2 _ Hb _ IH]; intros i r Hr.
  - exists []. now rewrite app_nil_r.
  - apply loop_body_pass in Hb as [next flags _ _ Hnl _ Hnw _ Htok _ _ _ _ _].
    assert (Hi : i < length next) by (rewrite Hnl; eapply lookup_lt_Some; exact Hr).
    destruct (lookup_lt_is_Some_2 next i Hi) as [c Hc].
    assert (Hc1 : length c = 1).
    { rewrite Forall_forall in Hnw. apply Hnw. eapply list_elem_of_lookup_2. exact Hc. }
    destruct (IH i (r ++ c)) as [g [Hg Hlen]].
    { rewrite Htok, lookup_zip_with, Hr, Hc. reflexivity. }
    exists (c ++ g). rewrite app_assoc. split; [exact Hg|].
    rewrite length_app. lia.
Qed.

End LoopFacts.

(** ** Before and after the loop *)

Lemma length_concat_replicate {A : Type} (n : nat) (d : list A) :
  length (concat (replicate n d)) = n * length d.
Proof.
  induction n as [|n IH]; simpl; [reflexivity|]. rewrite length_app, IH. reflexivity.
Qed.

Lemma rows_of_full {A : Type} (n c : nat) (d : list A) :
  length d = n * c -> Forall (fun r => length r = c) (rows_of n c d).
Proof.
  intros Hd. apply List.Forall_forall. intros r Hr. unfold rows_of in Hr.
  apply in_map_iff in Hr as [i [<- Hi]]. apply in_seq in Hi.
  apply length_row_at. nia.
Qed.

Lemma reshape_Ok {A : Type} (t : tensor A) (s : list nat) (t' : tensor A) :
  reshape t s = Ok t' -> length (data t) = numel s /\ t' = mkTensor s (data t).
Proof.
  unfold reshape. destruct (length (data t) =? numel s) eqn:Hl; [|discriminate].
  apply Nat.eqb_eq in Hl. intros Ht. injection Ht as <-. tauto.
Qed.

Lemma drop_all_rows (c : nat) (rows : list (list Z)) :
  Forall (fun r => length r = c) rows ->
  map (drop c) rows = replicate (length rows) [].
Proof.
  induction 1 as [|r rows Hr _ IH]; simpl; [reflexivity|].
  rewrite IH, drop_ge by lia. reflexivity.
Qed.

Section CallFacts.
Context {G : Type} `{Generator G} `{Functional} `{FloatFormat} {KVRow : Type}.
Variable self : Sequence KVRow.

(** What the code before the loop has set up when it raises nothing. *)
Lemma initial_Ok (entropy : Z) (p : prompt) (samples : nat) (g : option G)
    (batch_size npt : nat) (st0 : @state G KVRow) :
  initial self entropy p samples g = Ok (batch_size, npt, st0) ->
  let tok := squeeze0 (fst (encode (tokenizer (model self)) p)) in
  let mask := squeeze0 (snd (encode (tokenizer (model self)) p)) in
  batch_size = samples * numel (batch_shape tok) /\
  npt = List.last (shape tok) 0 /\
  token_ids st0 = rows_of batch_size npt (concat (replicate samples (data tok))) /\
  attention_mask st0 = rows_of batch_size npt (concat (replicate samples (data mask))) /\
  finished st0 = replicate batch_size false /\
  unfinished_past_key_values st0 = None /\
  rng st0 = match g with Some g => g | None => manual_seed entropy end /\
  shaped batch_size npt st0.
Proof.
  intros Hi tok mask. unfold initial in Hi. subst tok mask.
  destruct (encode (tokenizer (model self)) p) as [tok0 mask0]. cbn [fst snd].
  set (tok := squeeze0 tok0) in *. set (mask := squeeze0 mask0) in *.
  destruct (shape tok) as [|d ds] eqn:Hshape; [discriminate|].
  apply bind_Ok in Hi as [tok1 [Htok Hi]]. apply bind_Ok in Hi as [mask1 [Hmask Hi]].
  injection Hi as <- <- <-.
  apply reshape_Ok in Htok as [Hlt ->]. apply reshape_Ok in Hmask as [Hlm ->].
  simpl in Hlt, Hlm. rewrite length_concat_replicate in Hlt, Hlm.
  unfold matrix_rows, batch_shape, last_dim, shaped. simpl.
  rewrite !Nat.mul_1_r in *.
  rewrite !length_rows_of, length_replicate.
  repeat split; try reflexivity.
  - apply rows_of_full. rewrite length_concat_replicate. exact Hlt.
  - apply rows_of_full. rewrite length_concat_replicate. exact Hlm.
Qed.

(** C8: through a whole invocation, at the head of the loop and after every
    pass, the token matrix and the attention mask have [batch_size] rows and
    the same number of columns, the prompt length plus the number of passes;
    a pass appends one column of ones to the mask, for every row. *)
Theorem C8_token_ids_and_mask_same_shape (entropy : Z) (p : prompt) (samples : nat)
    (g : option G) (batch_size npt : nat) (st0 st : @state G KVRow) (k : nat) :
  initial self entropy p samples g = Ok (batch_size, npt, st0) ->
  iterates self batch_size npt k st0 st ->
  (length (token_ids st) = batch_size /\
   length (attention_mask st) = batch_size /\
   Forall (fun r => length r = npt + k) (token_ids st) /\
   Forall (fun r => length r = npt + k) (attention_mask st)) /\
  forall st', loop_body self batch_size npt st = Ok st' ->
    attention_mask st' = map (fun r => r ++ [1%Z]) (attention_mask st) /\
    length (attention_mask st') = batch_size /\
    length (token_ids st') = batch_size.
Proof.
  intros Hi Hk. apply initial_Ok in Hi as (_ & _ & _ & _ & _ & _ & _ & Hs0).
  pose proof (iterates_shaped self batch_size npt k st0 st Hk npt Hs0) as Hs.
  split; [unfold shaped in Hs; tauto|].
  intros st' Hb. apply loop_body_pass in Hb.
  pose proof (pass_shaped self batch_size npt _ _ _ Hs Hb) as Hs'.
  destruct Hb as [next flags _ _ _ _ _ _ _ Hmask _ _ _ _].
  rewrite Hmask at 1. rewrite expand_attention_mask_map.
  unfold shaped in Hs'. tauto.
Qed.

(** C6: with [max_tokens = m >= 0] every pass that starts is one of the
    first [m], so at most [m] passes call the model and a row gains at most
    [m] columns; fuel [m] is enough for the loop to end; with [m = 0] no pass
    starts and the call returns the decoding of the empty suffixes. *)
Theorem C6_max_tokens_bounds_the_loop (entropy : Z) (p : prompt) (samples : nat)
    (g : option G) (batch_size npt : nat) (st0 : @state G KVRow) (m : Z) :
  max_tokens self = Some m -> (0 <= m)%Z ->
  initial self entropy p samples g = Ok (batch_size, npt, st0) ->
  (forall k st, iterates self batch_size npt k st0 st ->
     (Z.of_nat k <= m)%Z /\
     (loop_done self npt st = false -> (Z.of_nat k < m)%Z) /\
     Forall (fun r => length r = npt + k) (token_ids st)) /\
  generate (Z.to_nat m) self batch_size npt st0 <> None /\
  (m = 0%Z ->
   forall fuel,
     generate fuel self batch_size npt st0 = Some (Ok st0) /\
     call fuel self entropy p samples g
     = Some (Ok (single_or_list
                   (postprocess_completions self
                      (decode (tokenizer (model self)) (replicate batch_size [])))))).
Proof.
  intros Hm Hpos Hi. pose proof Hi as Hi0.
  apply initial_Ok in Hi0 as (_ & _ & _ & _ & _ & _ & _ & Hs0).
  assert (Hs0' : shaped batch_size (npt + 0) st0) by now rewrite Nat.add_0_r.
  split; [|split].
  - intros k st Hk.
    pose proof (iterates_budget self batch_size npt m k st0 st Hm Hk 0 Hs0' Hpos) as Hle.
    pose proof (iterates_shaped self batch_size npt k st0 st Hk npt Hs0) as Hs.
    split; [exact Hle|]. split; [|unfold shaped in Hs; tauto].
    intros Hd. pose proof (loop_done_budget self batch_size npt m k st Hm Hs Hd).
    simpl in Hle. lia.
  - apply (generate_terminates self batch_size npt m (Z.to_nat m) Hm 0 st0 Hs0' Hpos).
    lia.
  - intros -> fuel.
    assert (Hg : generate fuel self batch_size npt st0 = Some (Ok st0)).
    { destruct (loop_done self npt st0) eqn:Hd.
      - destruct fuel; simpl; now rewrite Hd.
      - pose proof (loop_done_budget self batch_size npt 0%Z 0 st0 Hm Hs0' Hd). lia. }
    split; [exact Hg|]. unfold call. rewrite Hi, Hg. unfold finish.
    destruct Hs0 as [Hlen [_ [_ [Hrows _]]]].
    rewrite (drop_all_rows npt _ Hrows), Hlen. reflexivity.
Qed.

End CallFacts.

(** ** Finished rows and the incremental state *)

Lemma Forall2_with_left {A B : Type} (P : A -> B -> Prop) (Q : A -> Prop)
    (l : list A) (k : list B) :
  Forall2 P l k -> Forall Q l -> Forall2 (fun a b => Q a /\ P a b) l k.
Proof.
  induction 1 as [|a b l k Hab _ IH]; intros Hq; [constructor|].
  inversion_clear Hq as [|? ? Ha Hl]. constructor; [tauto | now apply IH].
Qed.

Section StateFacts.
Context {G : Type} `{Generator G} `{Functional} `{FloatFormat} {KVRow : Type}.
Variable self : Sequence KVRow.
Variables batch_size npt : nat.

(** The slice handed to the model is made of the rows at the active indices. *)
Lemma forward_args_rows (st : @state G KVRow) :
  length (finished st) = length (token_ids st) ->
  Forall2 (fun j row => token_ids st !! j = Some row)
          (active_rows st) (fst (fst (forward_args st))).
Proof.
  intros Hlen. unfold active_rows, forward_args. simpl.
  pose proof (select_indices (map negb (finished st)) (token_ids st) 0) as Hsel.
  rewrite length_map in Hsel. specialize (Hsel Hlen).
  eapply Forall2_impl; [exact Hsel|]. intros j row [_ Hrow].
  now rewrite Nat.sub_0_r in Hrow.
Qed.

Lemma finished_not_active (st : @state G KVRow) (i : nat) :
  finished st !! i = Some true -> i ∉ active_rows st.
Proof.
  intros Hi. unfold active_rows.
  pose proof (select_not_in (map negb (finished st)) 0 i
                (lookup_map_negb_true _ _ Hi)) as Hn.
  now rewrite length_map in Hn.
Qed.

Lemma pass_finished_row (st st' : @state G KVRow) (i : nat) (r : list Z) :
  pass self batch_size npt st st' ->
  finished st !! i = Some true -> token_ids st !! i = Some r ->
  finished st' !! i = Some true /\
  token_ids st' !! i = Some (r ++ [pad_token_id (tokenizer (model self))]) /\
  length (finished st') = length (token_ids st').
Proof.
  intros [next flags Hlt _ Hnl _ _ Hpad Htok _ _ Hfin _ _] Hi Hr.
  apply index_put_Ok in Hfin as [_ [Hfl [Hkeep _]]].
  split; [|split].
  - rewrite Hkeep by now apply lookup_map_negb_true. exact Hi.
  - rewrite Htok, lookup_zip_with, Hr, (Hpad i Hi). reflexivity.
  - rewrite Htok, length_zip_with. lia.
Qed.

(** C5: a row whose flag is set keeps it through all later passes, is at
    none of the indices of the slice that later passes hand to the model,
    keeps the tokens it had, and has received the padding token in every
    column appended since. *)
Theorem C5_finished_rows_are_frozen (k : nat) (st st' : @state G KVRow)
    (i : nat) (r : list Z) :
  finished st !! i = Some true ->
  token_ids st !! i = Some r ->
  length (finished st) = length (token_ids st) ->
  iterates self batch_size npt k st st' ->
  finished st' !! i = Some true /\
  (i ∉ active_rows st') /\
  Forall2 (fun j row => j <> i /\ token_ids st' !! j = Some row)
          (active_rows st') (fst (fst (forward_args st'))) /\
  token_ids st' !! i
  = Some (r ++ replicate k (pad_token_id (tokenizer (model self)))).
Proof.
  intros Hi Hr Hlen Hk. revert r Hi Hr Hlen.
  induction Hk as [st|k st st1 st2 _ Hb _ IH]; intros r Hi Hr Hlen.
  - pose proof (finished_not_active st i Hi) as Hn.
    split; [exact Hi|]. split; [exact Hn|]. split; [|now rewrite app_nil_r].
    apply Forall2_with_left; [now apply forward_args_rows|].
    apply Forall_forall. intros j Hj ->. contradiction.
  - apply loop_body_pass in Hb.
    destruct (pass_finished_row st st1 i r Hb Hi Hr) as [Hi1 [Hr1 Hlen1]].
    destruct (IH _ Hi1 Hr1 Hlen1) as [Hf [Hn [Hsl Hrow]]].
    repeat split; try assumption.
    rewrite Hrow, <- app_assoc. reflexivity.
Qed.

(** C4 (amended): after a pass in which the model returned a non-empty
    state, with a termination hook that gives one flag per row, every
    tensor of the state kept for the next forward call has as many rows as
    there are rows with [is_finished] false. *)
Theorem C4_pruned_state_rows (st st' : @state G KVRow) :
  one_flag_per_row self ->
  loop_body self batch_size npt st = Ok st' ->
  kv_truthy (snd (forward_ret self st)) = true ->
  exists kv,
    unfinished_past_key_values st' = Some kv /\
    snd (forward_args st') = Some kv /\
    Forall (Forall (fun vv => length vv = num_unfinished st')) kv.
Proof.
  intros Hhook Hb Ht. apply loop_body_pass in Hb.
  destruct Hb as [next flags Hlt _ Hnl _ _ _ Htok _ Hflags Hfin _ Hpr].
  destruct (Hpr Ht) as [kv0 [kv [_ [Hprune Hkv]]]].
  exists kv. split; [exact Hkv|]. split; [exact Hkv|].
  apply Hhook in Hflags. rewrite length_map, length_select in Hflags
    by (rewrite length_map, Htok, length_zip_with; lia).
  apply index_put_Ok in Hfin as (_ & _ & _ & _ & Hsc).
  unfold num_unfinished. rewrite (Hsc Hflags), count_true_scatter_negb by exact Hflags.
  now apply prune_kv_rows with (pkv := kv0).
Qed.

(** C10: when the model returns an empty state the state kept from an
    earlier pass stays as it is and is what the next forward call receives;
    the kept state changes only in a pass where the returned state is not
    empty. *)
Theorem C10_empty_state_keeps_stale (st st' : @state G KVRow) :
  loop_body self batch_size npt st = Ok st' ->
  (kv_truthy (snd (forward_ret self st)) = false ->
   unfinished_past_key_values st' = unfinished_past_key_values st /\
   snd (forward_args st') = unfinished_past_key_values st) /\
  (unfinished_past_key_values st' <> unfinished_past_key_values st ->
   kv_truthy (snd (forward_ret self st)) = true).
Proof.
  intros Hb. apply loop_body_pass in Hb.
  destruct Hb as [next flags _ _ _ _ _ _ _ _ _ _ Hkeep _].
  split.
  - intros Hf. split; exact (Hkeep Hf).
  - intros Hne. destruct (kv_truthy (snd (forward_ret self st))); [reflexivity|].
    now specialize (Hkeep eq_refl).
Qed.

End StateFacts.

(** ** The generator only matters through its stream *)

Section Streams.
Context {G : Type} `{Generator G} `{Functional} `{FloatFormat} {KVRow : Type}.
Variable self : Sequence KVRow.
Variables batch_size npt : nat.

Lemma rand_draws_add (k j : nat) :
  forall g : G,
    rand_draws g (k + j)
    = (fst (rand_draws g k) ++ fst (rand_draws (snd (rand_draws g k)) j),
       snd (rand_draws (snd (rand_draws g k)) j)).
Proof.
  induction k as [|k IH]; intros g; simpl.
  - now destruct (rand_draws g j).
  - destruct (uniform g) as [u g1]. rewrite IH.
    destruct (rand_draws g1 k) as [us g2]. reflexivity.
Qed.

Lemma same_stream_refl (g : G) : same_stream g g.
Proof. intros k. reflexivity. Qed.

Lemma same_stream_after (g1 g2 : G) (k : nat) :
  same_stream g1 g2 ->
  same_stream (snd (rand_draws g1 k)) (snd (rand_draws g2 k)).
Proof.
  intros Hs j. pose proof (Hs (k + j)) as Hkj. pose proof (Hs k) as Hk.
  rewrite !rand_draws_add in Hkj. simpl in Hkj. rewrite Hk in Hkj.
  now apply app_inv_head in Hkj.
Qed.

Lemma sampler_same_stream (g1 g2 : G) (p : tensor Q) (n : nat) :
  same_stream g1 g2 ->
  fst (vectorized_random_choice g1 p n) = fst (vectorized_random_choice g2 p n) /\
  same_stream (snd (vectorized_random_choice g1 p n))
              (snd (vectorized_random_choice g2 p n)).
Proof.
  intros Hs. unfold vectorized_random_choice, torch_rand.
  set (k := numel (n :: batch_shape p ++ [1])).
  pose proof (Hs k) as Hk. pose proof (same_stream_after g1 g2 k Hs) as Ha.
  destruct (rand_draws g1 k) as [d1 g1']. destruct (rand_draws g2 k) as [d2 g2'].
  simpl in *. subst d2. split; [reflexivity | exact Ha].
Qed.

Lemma step_same_stream (g1 g2 : G) (toks mask : list (list Z))
    (pkv : option (KVCache KVRow)) :
  same_stream g1 g2 ->
  result_rel (fun r1 r2 => fst r1 = fst r2 /\ same_stream (snd r1) (snd r2))
             (step self g1 npt toks mask 1 pkv) (step self g2 npt toks mask 1 pkv).
Proof.
  intros Hs. unfold step. destruct (forward (model self) toks mask pkv) as [probs pkv'].
  set (pr := softmax (create_proposal self (map (drop npt) toks) probs)).
  destruct (decide (batch_shape pr = [length toks])); [|reflexivity].
  destruct (sampler_same_stream g1 g2 pr 1 Hs) as [Hidx Hg].
  destruct (vectorized_random_choice g1 pr 1) as [idx1 g1'].
  destruct (vectorized_random_choice g2 pr 1) as [idx2 g2'].
  simpl in *. subst idx2. split; [reflexivity | exact Hg].
Qed.

Lemma loop_done_eqv (st1 st2 : @state G KVRow) :
  state_eqv st1 st2 -> loop_done self npt st1 = loop_done self npt st2.
Proof. intros (Ht & _ & Hf & _). unfold loop_done. now rewrite Ht, Hf. Qed.

Lemma loop_body_same_stream (st1 st2 : @state G KVRow) :
  state_eqv st1 st2 ->
  result_rel state_eqv (loop_body self batch_size npt st1)
                       (loop_body self batch_size npt st2).
Proof.
  intros (Ht & Hm & Hf & Hkv & Hs). unfold loop_body. rewrite Ht, Hm, Hf, Hkv.
  destruct (mask_select (token_ids st2) (map negb (finished st2))) as [utok|];
    [|reflexivity].
  destruct (mask_select (attention_mask st2) (map negb (finished st2))) as [umask|];
    [|reflexivity].
  cbn [bind].
  pose proof (step_same_stream (rng st1) (rng st2) utok umask
                (unfinished_past_key_values st2) Hs) as Hstep.
  destruct (step self (rng st1) npt utok umask 1 (unfinished_past_key_values st2))
    as [[[[next1 probs1] pkv1] g1']|e1];
    destruct (step self (rng st2) npt utok umask 1 (unfinished_past_key_values st2))
    as [[[[next2 probs2] pkv2] g2']|e2];
    simpl in Hstep; try contradiction; [|exact Hstep].
  destruct Hstep as [Heq Hg]. injection Heq as <- <- <-. cbn [bind].
  repeat match goal with
         | |- result_rel _ (bind ?m _) (bind ?m _) =>
             destruct m; cbn [bind]; [|reflexivity]
         end.
  unfold state_eqv. simpl. tauto.
Qed.

Lemma generate_same_stream (fuel : nat) :
  forall st1 st2 : @state G KVRow,
    state_eqv st1 st2 ->
    match generate fuel self batch_size npt st1,
          generate fuel self batch_size npt st2 with
    | Some r1, Some r2 => result_rel state_eqv r1 r2
    | None, None => True
    | _, _ => False
    end.
Proof.
  induction fuel as [|fuel IH]; intros st1 st2 Hst; simpl;
    rewrite (loop_done_eqv st1 st2 Hst);
    destruct (loop_done self npt st2); try exact Hst; try exact I.
  pose proof (loop_body_same_stream st1 st2 Hst) as Hb.
  destruct (loop_body self batch_size npt st1) as [st1'|e1];
    destruct (loop_body self batch_size npt st2) as [st2'|e2];
    simpl in Hb; try contradiction; [now apply IH | exact Hb].
Qed.

End Streams.

Section InitialStream.
Context {G : Type} `{Generator G} `{Functional} `{FloatFormat} {KVRow : Type}.
Variable self : Sequence KVRow.

Lemma initial_same_stream (entropy1 entropy2 : Z) (p : prompt) (samples : nat)
    (g1 g2 : G) :
  same_stream g1 g2 ->
  result_rel (fun r1 r2 : nat * nat * @state G KVRow =>
                fst (fst r1) = fst (fst r2) /\ snd (fst r1) = snd (fst r2) /\
                state_eqv (snd r1) (snd r2))
             (initial self entropy1 p samples (Some g1))
             (initial self entropy2 p samples (Some g2)).
Proof.
  intros Hs. unfold initial.
  destruct (encode (tokenizer (model self)) p) as [tok mask].
  destruct (shape (squeeze0 tok)); [reflexivity|].
  repeat match goal with
         | |- result_rel _ (bind ?m _) (bind ?m _) =>
             destruct m; cbn [bind]; [|reflexivity]
         end.
  simpl. unfold state_eqv. simpl. tauto.
Qed.

End InitialStream.

(** ** The order of the completions *)

Lemma rows_of_concat {A : Type} (c : nat) (rows : list (list A)) :
  Forall (fun r => length r = c) rows ->
  rows_of (length rows) c (concat rows) = rows.
Proof.
  induction 1 as [|r rows Hr _ IH]; [reflexivity|].
  unfold rows_of in *. simpl length. simpl seq. simpl map. f_equal.
  - unfold row_at. simpl. rewrite drop_0. subst c. apply take_app_length.
  - rewrite <- seq_shift, map_map. etransitivity; [|exact IH]. apply map_ext.
    intros i. unfold row_at. simpl concat.
    replace (S i * c) with (length r + i * c) by lia.
    now rewrite drop_app_add.
Qed.

Section Order.
Context {G : Type} `{Generator G} `{Functional} `{FloatFormat} {KVRow : Type}.
Variable self : Sequence KVRow.

(** C1 (amended): with two prompts, encoded as the rows [r0] and [r1], and
    [samples = 2], the batch is [r0; r1; r0; r1]: row [s * 2 + p] continues
    prompt [p] (all prompts for sample 0, then all prompts for sample 1).
    A call that returns gives four strings in that order, the decodings of
    the generated suffixes of the four rows. *)
Theorem C1_sample_major_order (entropy : Z) (a b : string) (r0 r1 : list Z)
    (mask : tensor Z) (g : option G) (fuel : nat) (res : completion) :
  encode (tokenizer (model self)) (PromptList [a; b])
  = (mkTensor [2; length r0] (r0 ++ r1), mask) ->
  length r1 = length r0 ->
  (forall rows, length (decode (tokenizer (model self)) rows) = length rows) ->
  (forall l, length (postprocess_completions self l) = length l) ->
  call fuel self entropy (PromptList [a; b]) 2 g = Some (Ok res) ->
  exists (st0 st' : @state G KVRow) (l : list string),
    initial self entropy (PromptList [a; b]) 2 g = Ok (4, length r0, st0) /\
    token_ids st0 = [r0; r1; r0; r1] /\
    generate fuel self 4 (length r0) st0 = Some (Ok st') /\
    sample_major [r0; r1] 2 (token_ids st') /\
    l = postprocess_completions self
          (decode (tokenizer (model self)) (map (drop (length r0)) (token_ids st'))) /\
    length l = 4 /\
    res = Many l.
Proof.
  intros Henc Hr1 Hdec Hpost Hcall. unfold call in Hcall.
  destruct (initial self entropy (PromptList [a; b]) 2 g)
    as [[[bs npt] st0]|e] eqn:Hinit; [|discriminate].
  destruct (generate fuel self bs npt st0) as [[st'|e]|] eqn:Hgen; try discriminate.
  injection Hcall as <-.
  pose proof (initial_Ok self _ _ _ _ _ _ _ Hinit) as Hi. rewrite Henc in Hi.
  cbn [fst snd] in Hi. unfold squeeze0 at 1 2 3 in Hi. cbn [shape data] in Hi.
  destruct Hi as (Hbs & Hnpt & Htok & _ & _ & _ & _ & Hs0).
  unfold batch_shape in Hbs. simpl in Hbs, Hnpt. subst bs npt.
  assert (Htok0 : token_ids st0 = [r0; r1; r0; r1]).
  { rewrite Htok.
    assert (E : concat (replicate 2 (r0 ++ r1)) = concat [r0; r1; r0; r1])
      by (simpl; rewrite !app_nil_r, <- !app_assoc; reflexivity).
    rewrite E. apply (rows_of_concat (length r0) [r0; r1; r0; r1]).
    repeat constructor; assumption. }
  destruct (generate_iterates self 4 (length r0) fuel st0 st' Hgen) as [k [Hk _]].
  pose proof (iterates_shaped self 4 (length r0) k st0 st' Hk _ Hs0) as Hs'.
  exists st0, st', (postprocess_completions self
                      (decode (tokenizer (model self))
                              (map (drop (length r0)) (token_ids st')))).
  assert (Hlen : length (postprocess_completions self
                   (decode (tokenizer (model self))
                           (map (drop (length r0)) (token_ids st')))) = 4).
  { rewrite Hpost, Hdec, length_map. unfold shaped in Hs'. tauto. }
  repeat split; try assumption; try reflexivity.
  - intros p s r Hp Hs.
    assert (Hrow : token_ids st0 !! (s * length [r0; r1] + p) = Some r).
    { rewrite Htok0. destruct p as [|[|p]]; try discriminate;
        destruct s as [|[|s]]; try lia; exact Hp. }
    destruct (iterates_row_grows self 4 (length r0) k st0 st' Hk _ _ Hrow) as [gen [Hg _]].
    exists gen. exact Hg.
  - unfold finish.
    destruct (postprocess_completions self _) as [|x [|y l]]; simpl in Hlen;
      try discriminate; reflexivity.
Qed.

(** C7: two calls with the same prompt, sample count and model, given
    generators that produce the same stream of draws (as two handles seeded
    with the same seed do), return the same completions, whatever entropy
    the environment would have given to an unseeded generator. *)
Theorem C7_same_seed_same_completions (fuel : nat) (entropy1 entropy2 : Z)
    (p : prompt) (samples : nat) (g1 g2 : G) :
  same_stream g1 g2 ->
  call fuel self entropy1 p samples (Some g1)
  = call fuel self entropy2 p samples (Some g2).
Proof.
  intros Hs. unfold call.
  pose proof (initial_same_stream self entropy1 entropy2 p samples g1 g2 Hs) as Hi.
  destruct (initial self entropy1 p samples (Some g1)) as [[[bs1 npt1] st1]|e1];
    destruct (initial self entropy2 p samples (Some g2)) as [[[bs2 npt2] st2]|e2];
    simpl in Hi; try contradiction; [|now subst].
  destruct Hi as (-> & -> & Hst).
  pose proof (generate_same_stream self bs2 npt2 fuel st1 st2 Hst) as Hg.
  destruct (generate fuel self bs2 npt2 st1) as [[st1'|e1]|];
    destruct (generate fuel self bs2 npt2 st2) as [[st2'|e2]|];
    simpl in Hg; try contradiction; try reflexivity; [|now subst].
  unfold finish. destruct Hg as (-> & _). reflexivity.
Qed.

End Order.

(** ** The definitions run on concrete inputs *)

Example demo_two_by_two_initial :
  initial demo_two_by_two 0 (PromptList ["a"; "bb"]%string) 2 (Some (lcg_seed 7))
  = Ok (4, 1, demo_two_by_two_st0).
Proof. reflexivity. Qed.

Example demo_two_by_two_pass :
  loop_body demo_two_by_two 4 1 demo_two_by_two_st0 = Ok demo_two_by_two_st1.
Proof. vm_compute. reflexivity. Qed.

Example demo_two_by_two_call :
  call 5 demo_two_by_two 0 (PromptList ["a"; "bb"]%string) 2 (Some (lcg_seed 7))
  = Some (Ok (Many ["y"; "."; "y"; "."]%string)).
Proof. vm_compute. reflexivity. Qed.

Example demo_once_initial :
  initial demo_once 0 (PromptList [""; "a"]%string) 1 (Some (lcg_seed 7))
  = Ok (2, 1, demo_once_st0).
Proof. reflexivity. Qed.

Example demo_once_pass1 : loop_body demo_once 2 1 demo_once_st0 = Ok demo_once_st1.
Proof. vm_compute. reflexivity. Qed.

Example demo_once_pass2 : loop_body demo_once 2 1 demo_once_st1 = Ok demo_once_st2.
Proof. vm_compute. reflexivity. Qed.

Example demo_once_pass3 : loop_body demo_once 2 1 demo_once_st2 = Ok demo_once_st3.
Proof. vm_compute. reflexivity. Qed.

(** Without a generator from the caller the completion follows the entropy
    that seeds the fresh generator. *)
Example unseeded_calls_differ :
  call 5 demo_two_by_two 0 (PromptStr "a") 1 None = Some (Ok (Single "_")) /\
  call 5 demo_two_by_two 1 (PromptStr "a") 1 None = Some (Ok (Single "y")).
Proof. split; vm_compute; reflexivity. Qed.

Lemma demo_one_flag_per_row (fwd : list (list Z) -> list (list Z) -> option (KVCache Z)
                                   -> tensor Q * option (KVCache Z))
    (m : option Z) :
  one_flag_per_row (demo_sequence fwd m).
Proof.
  intros rows flags Hf. simpl in Hf. unfold demo_is_finished in Hf.
  injection Hf as <-. apply length_map.
Qed.

(** C1 as stated fails: with the prompts encoded as [1] and [2] and two
    samples, the rows of the batch are [1], [2], [1], [2], and the four
    completions come in that order; row 1, which a prompt-major order gives
    to prompt 0, continues prompt 1. *)
Lemma C1_prompt_major_fails :
  exists st' : @state Z Z,
    generate 5 demo_two_by_two 4 1 demo_two_by_two_st0 = Some (Ok st') /\
    token_ids st' = [[1; 2]; [2; 3]; [1; 2]; [2; 3]]%Z /\
    call 5 demo_two_by_two 0 (PromptList ["a"; "bb"]%string) 2 (Some (lcg_seed 7))
    = Some (Ok (Many ["y"; "."; "y"; "."]%string)) /\
    ~ prompt_major [[1]; [2]]%Z 2 (token_ids st').
Proof.
  exists demo_two_by_two_st1. split; [vm_compute; reflexivity|].
  split; [reflexivity|]. split; [exact demo_two_by_two_call|].
  intros Hpm. destruct (Hpm 0 1 [1%Z] eq_refl) as [g Hg]; [lia|].
  simpl in Hg. discriminate Hg.
Qed.

Lemma C1_sample_major_order_witness :
  exists (st0 st' : @state Z Z) (l : list string),
    initial demo_two_by_two 0 (PromptList ["a"; "bb"]%string) 2 (Some (lcg_seed 7))
    = Ok (4, 1, st0) /\
    token_ids st0 = [[1]; [2]; [1]; [2]]%Z /\
    generate 5 demo_two_by_two 4 1 st0 = Some (Ok st') /\
    sample_major [[1]; [2]]%Z 2 (token_ids st') /\
    l = postprocess_completions demo_two_by_two
          (decode (tokenizer (model demo_two_by_two)) (map (drop 1) (token_ids st'))) /\
    length l = 4 /\
    Many ["y"; "."; "y"; "."]%string = Many l.
Proof.
  apply (C1_sample_major_order demo_two_by_two 0 "a" "bb" [1%Z] [2%Z]
           (mkTensor [2; 1] [1; 1]%Z) (Some (lcg_seed 7)) 5
           (Many ["y"; "."; "y"; "."]%string)).
  - reflexivity.
  - reflexivity.
  - intros rows. apply length_map.
  - intros l. reflexivity.
  - exact demo_two_by_two_call.
Defined.

(** C4 as stated fails: the model returns a state in the first pass and an
    empty one in the second, in which row 1 finishes; the loop goes on with
    one active row and keeps for the next forward call the state of the
    first pass, whose tensors have two rows. *)
Lemma C4_stale_state_has_more_rows :
  iterates demo_once 2 1 2 demo_once_st0 demo_once_st2 /\
  loop_done demo_once 1 demo_once_st2 = false /\
  num_unfinished demo_once_st2 = 1 /\
  snd (forward_args demo_once_st2) = Some [[[0; 1]; [0; 1]]]%Z /\
  ~ (exists kv, snd (forward_args demo_once_st2) = Some kv /\
       Forall (Forall (fun vv => length vv = num_unfinished demo_once_st2)) kv).
Proof.
  split.
  { eapply iterates_S; [reflexivity | exact demo_once_pass1 |].
    eapply iterates_S; [reflexivity | exact demo_once_pass2 | constructor]. }
  split; [reflexivity|]. split; [reflexivity|]. split; [reflexivity|].
  intros [kv [Hkv Hall]]. simpl in Hkv. injection Hkv as <-.
  inversion_clear Hall as [|? ? Hv _]. inversion_clear Hv as [|? ? Hvv _].
  vm_compute in Hvv. discriminate Hvv.
Qed.

Lemma C4_pruned_state_rows_witness :
  (one_flag_per_row demo_two_by_two /\
   loop_body demo_two_by_two 4 1 demo_two_by_two_st0 = Ok demo_two_by_two_st1 /\
   kv_truthy (snd (forward_ret demo_two_by_two demo_two_by_two_st0)) = true) /\
  exists kv,
    unfinished_past_key_values demo_two_by_two_st1 = Some kv /\
    snd (forward_args demo_two_by_two_st1) = Some kv /\
    Forall (Forall (fun vv => length vv = num_unfinished demo_two_by_two_st1)) kv.
Proof.
  assert (Hh : one_flag_per_row demo_two_by_two) by apply demo_one_flag_per_row.
  assert (Ht : kv_truthy (snd (forward_ret demo_two_by_two demo_two_by_two_st0)) = true)
    by reflexivity.
  split; [split; [exact Hh | split; [exact demo_two_by_two_pass | exact Ht]]|].
  exact (C4_pruned_state_rows demo_two_by_two 4 1 _ _ Hh demo_two_by_two_pass Ht).
Defined.

Lemma C5_finished_rows_are_frozen_witness :
  (finished demo_once_st2 !! 1 = Some true /\
   token_ids demo_once_st2 !! 1 = Some [1; 2; 3]%Z /\
   length (finished demo_once_st2) = length (token_ids demo_once_st2) /\
   iterates demo_once 2 1 1 demo_once_st2 demo_once_st3) /\
  token_ids demo_once_st3 !! 1 = Some ([1; 2; 3] ++ replicate 1 0)%Z.
Proof.
  assert (Hk : iterates demo_once 2 1 1 demo_once_st2 demo_once_st3).
  { eapply iterates_S; [reflexivity | exact demo_once_pass3 | constructor]. }
  split; [repeat split; try reflexivity; exact Hk|].
  exact (proj2 (proj2 (proj2
    (C5_finished_rows_are_frozen demo_once 2 1 1 demo_once_st2 demo_once_st3 1
       [1; 2; 3]%Z eq_refl eq_refl eq_refl Hk)))).
Defined.

Lemma C6_max_tokens_bounds_the_loop_witness :
  (max_tokens demo_two_by_two = Some 1%Z /\ (0 <= 1)%Z /\
   initial demo_two_by_two 0 (PromptList ["a"; "bb"]%string) 2 (Some (lcg_seed 7))
   = Ok (4, 1, demo_two_by_two_st0)) /\
  generate (Z.to_nat 1) demo_two_by_two 4 1 demo_two_by_two_st0 <> None.
Proof.
  assert (Hpos : (0 <= 1)%Z) by lia.
  split; [split; [reflexivity | split; [exact Hpos | exact demo_two_by_two_initial]]|].
  exact (proj1 (proj2
    (C6_max_tokens_bounds_the_loop demo_two_by_two 0 _ 2 _ 4 1 _ 1%Z
       eq_refl Hpos demo_two_by_two_initial))).
Defined.

Lemma C8_token_ids_and_mask_same_shape_witness :
  (initial demo_once 0 (PromptList [""; "a"]%string) 1 (Some (lcg_seed 7))
   = Ok (2, 1, demo_once_st0) /\
   iterates demo_once 2 1 2 demo_once_st0 demo_once_st2) /\
  length (token_ids demo_once_st2) = 2 /\
  length (attention_mask demo_once_st2) = 2 /\
  Forall (fun r => length r = 1 + 2) (token_ids demo_once_st2) /\
  Forall (fun r => length r = 1 + 2) (attention_mask demo_once_st2).
Proof.
  assert (Hk : iterates demo_once 2 1 2 demo_once_st0 demo_once_st2).
  { eapply iterates_S; [reflexivity | exact demo_once_pass1 |].
    eapply iterates_S; [reflexivity | exact demo_once_pass2 | constructor]. }
  split; [split; [exact demo_once_initial | exact Hk]|].
  exact (proj1 (C8_token_ids_and_mask_same_shape demo_once 0 _ 1 _ 2 1 _ _ 2
                  demo_once_initial Hk)).
Defined.

Lemma C10_empty_state_keeps_stale_witness :
  (loop_body demo_once 2 1 demo_once_st1 = Ok demo_once_st2 /\
   kv_truthy (snd (forward_ret demo_once demo_once_st1)) = false) /\
  unfinished_past_key_values demo_once_st2 = unfinished_past_key_values demo_once_st1 /\
  snd (forward_args demo_once_st2) = unfinished_past_key_values demo_once_st1.
Proof.
  assert (Hf : kv_truthy (snd (forward_ret demo_once demo_once_st1)) = false)
    by reflexivity.
  split; [split; [exact demo_once_pass2 | exact Hf]|].
  exact (proj1 (C10_empty_state_keeps_stale demo_once 2 1 _ _ demo_once_pass2) Hf).
Defined.

Lemma C7_same_seed_same_completions_witness :
  same_stream (manual_seed 7 : Z) (manual_seed 7) /\
  call 5 demo_two_by_two 0 (PromptList ["a"; "bb"]%string) 2 (Some (manual_seed 7))
  = call 5 demo_two_by_two 1 (PromptList ["a"; "bb"]%string) 2 (Some (manual_seed 7)).
Proof.
  assert (Hs : same_stream (manual_seed 7 : Z) (manual_seed 7))
    by (intros k; reflexivity).
  split; [exact Hs|].
  exact (C7_same_seed_same_completions demo_two_by_two 5 0 1 _ 2 _ _ Hs).
Defined.

(** Two states of the linear congruential generator that agree modulo its
    modulus give the same stream, hence the same completions. *)
Lemma lcg_same_stream (s1 s2 : Z) :
  (s1 mod Zpos lcg_modulus = s2 mod Zpos lcg_modulus)%Z -> same_stream s1 s2.
Proof.
  intros Hm [|k]; [reflexivity|]. simpl. unfold lcg_uniform. rewrite Hm.
  assert (Hn : ((1103515245 * s1 + 12345) mod Zpos lcg_modulus
                = (1103515245 * s2 + 12345) mod Zpos lcg_modulus)%Z).
  { rewrite (Z.add_mod (1103515245 * s1)), (Z.mul_mod 1103515245 s1), Hm by discriminate.
    rewrite <- Z.mul_mod, <- Z.add_mod by discriminate. reflexivity. }
  rewrite Hn. reflexivity.
Qed.

Example congruent_states_same_completions :
  call 5 demo_two_by_two 0 (PromptList ["a"; "bb"]%string) 2 (Some 7%Z)
  = call 5 demo_two_by_two 0 (PromptList ["a"; "bb"]%string) 2 (Some 2147483655%Z).
Proof. vm_compute. reflexivity. Qed.

(** * Further properties of the sampler *)

Lemma count_below_all (cs : list Q) (u : Q) :
  Forall (fun c => (c < u)%Q) cs -> count_below cs u = length cs.
Proof. apply count_below_all_iff. Qed.

Section RoundedSamplerFacts.
Context `{RoundingLaws}.

Lemma cumsum_from_lower (l : list Q) :
  forall acc : Q,
    (rnd acc == acc)%Q ->
    Forall (fun x => (0 <= x)%Q) l ->
    Forall (fun c => (acc <= c)%Q) (cumsum_from acc l).
Proof.
  induction l as [|x l IH]; intros acc Hrep Hl; simpl; [constructor|].
  inversion_clear Hl as [|? ? Hx Hl'].
  destruct (fadd_lower acc x Hrep Hx) as [Hlow Hrep'].
  constructor; [exact Hlow|].
  eapply Forall_impl; [apply IH; [exact Hrep' | exact Hl']|].
  intros c Hc. simpl in Hc. lra.
Qed.

Lemma prefix_below_from (l : list Q) (u : Q) :
  forall acc : Q,
    (rnd acc == acc)%Q ->
    Forall (fun x => (0 <= x)%Q) l ->
    (forall j c, j < count_below (cumsum_from acc l) u ->
       cumsum_from acc l !! j = Some c -> (c < u)%Q) /\
    (forall j c, count_below (cumsum_from acc l) u <= j ->
       cumsum_from acc l !! j = Some c -> (u <= c)%Q).
Proof.
  induction l as [|x l IH]; intros acc Hrep Hl.
  - split; intros j c _ Hc; discriminate Hc.
  - inversion_clear Hl as [|? ? Hx Hl']. simpl cumsum_from.
    destruct (fadd_lower acc x Hrep Hx) as [Hlow Hrep'].
    rewrite count_below_cons. destruct (Qltb (fadd acc x) u) eqn:Hlt.
    + apply Qltb_lt in Hlt. destruct (IH (fadd acc x) Hrep' Hl') as [Hlo Hhi].
      split; intros [|j] c Hj Hc; simpl in Hc.
      * injection Hc as <-. exact Hlt.
      * apply (Hlo j); [lia | exact Hc].
      * lia.
      * apply (Hhi j); [lia | exact Hc].
    + apply Qltb_ge in Hlt.
      rewrite (count_below_none u l (fadd acc x) Hrep' Hlt Hl'). simpl.
      split; intros [|j] c Hj Hc; simpl in Hc; try lia.
      * injection Hc as <-. exact Hlt.
      * pose proof (cumsum_from_lower l (fadd acc x) Hrep' Hl') as Hge.
        rewrite Forall_forall in Hge.
        assert (Hin : c ∈ cumsum_from (fadd acc x) l)
          by (eapply list_elem_of_lookup_2; exact Hc).
        apply Hge in Hin. simpl in Hin. lra.
Qed.

(** X1: on a row of non negative entries the cumulative sums below the draw
    are a prefix, so the index the sampler returns is the first position
    whose cumulative sum reaches the draw. *)
Theorem X1_index_is_first_reaching_draw (r : list Q) (u : Q) :
  Forall (fun x => (0 <= x)%Q) r ->
  (forall j c, j < count_below (cumsum r) u -> cumsum r !! j = Some c -> (c < u)%Q) /\
  (forall j c, count_below (cumsum r) u <= j -> cumsum r !! j = Some c -> (u <= c)%Q).
Proof. intros Hr. apply prefix_below_from; [apply rnd_zero | exact Hr]. Qed.

Lemma positive_mass_from (l : list Q) (u : Q) :
  forall acc : Q,
    (rnd acc == acc)%Q ->
    Forall (fun x => (0 <= x)%Q) l -> (acc < u)%Q ->
    Exists (fun c => (u <= c)%Q) (cumsum_from acc l) ->
    exists p, l !! count_below (cumsum_from acc l) u = Some p /\ (0 < p)%Q.
Proof.
  induction l as [|x l IH]; intros acc Hrep Hl Hacc Hex.
  - inversion Hex.
  - inversion_clear Hl as [|? ? Hx Hl']. simpl cumsum_from in *.
    destruct (fadd_lower acc x Hrep Hx) as [Hlow Hrep'].
    rewrite count_below_cons. destruct (Qltb (fadd acc x) u) eqn:Hlt.
    + apply Qltb_lt in Hlt.
      destruct (IH (fadd acc x) Hrep' Hl' Hlt) as [p [Hp Hpos]].
      { apply Exists_cons in Hex as [Hhead|Htail]; [lra | exact Htail]. }
      exists p. split; [exact Hp | exact Hpos].
    + apply Qltb_ge in Hlt.
      rewrite (count_below_none u l (fadd acc x) Hrep' Hlt Hl'). simpl.
      exists x. split; [reflexivity|].
      destruct (Qlt_le_dec 0 x) as [Hpos|Hle]; [exact Hpos|].
      assert (Hx0 : (x == 0)%Q) by lra.
      assert (Hsame : (fadd acc x == fadd acc 0)%Q)
        by (unfold fadd; apply rnd_proper; lra).
      pose proof (fadd_zero acc Hrep) as Hz. lra.
Qed.

(** X2: on a row of non negative entries, with a draw above zero that some
    cumulative sum of the format reaches, the index returned is a category
    of the row with probability above zero. *)
Theorem X2_positive_draw_positive_probability (r : list Q) (u : Q) :
  Forall (fun x => (0 <= x)%Q) r -> (0 < u)%Q ->
  Exists (fun c => (u <= c)%Q) (cumsum r) ->
  exists p, r !! count_below (cumsum r) u = Some p /\ (0 < p)%Q.
Proof.
  intros Hr Hpos Hex.
  apply positive_mass_from; [apply rnd_zero | exact Hr | exact Hpos | exact Hex].
Qed.

Lemma cumsum_from_le_last (l : list Q) :
  forall (acc d : Q),
    (rnd acc == acc)%Q ->
    Forall (fun x => (0 <= x)%Q) l ->
    last (cumsum_from acc l) = Some d ->
    Forall (fun c => (c <= d)%Q) (cumsum_from acc l).
Proof.
  induction l as [|x l IH]; intros acc d Hrep Hl Hlast; [constructor|].
  inversion_clear Hl as [|? ? Hx Hl']. simpl cumsum_from in *.
  destruct (fadd_lower acc x Hrep Hx) as [Hlow Hrep'].
  destruct (cumsum_from (fadd acc x) l) as [|c cs] eqn:Hcs.
  - simpl in Hlast. injection Hlast as <-. constructor; [lra | constructor].
  - assert (Htail : Forall (fun c0 => (c0 <= d)%Q) (c :: cs)).
    { rewrite <- Hcs. apply IH; [exact Hrep' | exact Hl' |].
      rewrite Hcs. exact Hlast. }
    constructor; [|exact Htail].
    pose proof (cumsum_from_lower l (fadd acc x) Hrep' Hl') as Hge.
    rewrite Hcs in Hge. inversion_clear Hge as [|? ? Hc _].
    inversion_clear Htail as [|? ? Hcd _]. lra.
Qed.

(** X3: on a row of non negative entries the index is one past the last
    category exactly when the last cumulative sum of the format, if there
    is one, is below the draw. *)
Theorem X3_index_out_of_range_iff_total_below_draw (r : list Q) (u : Q) :
  Forall (fun x => (0 <= x)%Q) r ->
  count_below (cumsum r) u = length r
  <-> (forall d, last (cumsum r) = Some d -> (d < u)%Q).
Proof.
  intros Hr. unfold cumsum.
  rewrite <- (length_cumsum_from r 0%Q) at 1. rewrite count_below_all_iff. split.
  - intros Hall d Hd. rewrite Forall_forall in Hall. apply Hall.
    apply last_Some in Hd as [l' Hl']. rewrite Hl'. apply elem_of_app. right.
    apply list_elem_of_singleton. reflexivity.
  - intros Hlast. destruct (last (cumsum_from 0 r)) as [d|] eqn:Hd.
    + pose proof (cumsum_from_le_last r 0%Q d rnd_zero Hr Hd) as Hle.
      specialize (Hlast d eq_refl). eapply Forall_impl; [exact Hle|].
      intros c Hc. simpl in Hc. lra.
    + apply last_None in Hd. rewrite Hd. constructor.
Qed.

End RoundedSamplerFacts.

Lemma X1_index_is_first_reaching_draw_witness :
  Forall (fun x => (0 <= x)%Q) [1 # 4; 1 # 2; 1 # 4]%Q /\
  (forall j c, 1 <= j -> cumsum [1 # 4; 1 # 2; 1 # 4]%Q !! j = Some c -> (1 # 2 <= c)%Q).
Proof.
  assert (Hr : Forall (fun x => (0 <= x)%Q) [1 # 4; 1 # 2; 1 # 4]%Q)
    by (repeat constructor; discriminate).
  split; [exact Hr|].
  exact (proj2 (X1_index_is_first_reaching_draw [1 # 4; 1 # 2; 1 # 4]%Q (1 # 2)%Q Hr)).
Defined.

Lemma X2_positive_draw_positive_probability_witness :
  (Forall (fun x => (0 <= x)%Q) rounding_row /\ (0 < 3 # 4)%Q /\
   Exists (fun c => (3 # 4 <= c)%Q) (@cumsum binary64 rounding_row)) /\
  exists p, rounding_row !! count_below (@cumsum binary64 rounding_row) (3 # 4)%Q = Some p /\
            (0 < p)%Q.
Proof.
  assert (Hr : Forall (fun x => (0 <= x)%Q) rounding_row)
    by (unfold rounding_row; repeat constructor; discriminate).
  assert (Hpos : (0 < 3 # 4)%Q) by reflexivity.
  assert (Hex : Exists (fun c => (3 # 4 <= c)%Q) (@cumsum binary64 rounding_row))
    by (do 5 apply Exists_cons_tl; apply Exists_cons_hd; vm_compute; discriminate).
  split; [split; [exact Hr | split; [exact Hpos | exact Hex]]|].
  exact (@X2_positive_draw_positive_probability binary64 binary64_laws _ _ Hr Hpos Hex).
Defined.

Lemma X3_index_out_of_range_iff_total_below_draw_witness :
  Forall (fun x => (0 <= x)%Q) rounding_row /\
  count_below (@cumsum binary64 rounding_row) (9007199254740991 # 9007199254740992)%Q = 6.
Proof.
  assert (Hr : Forall (fun x => (0 <= x)%Q) rounding_row)
    by (unfold rounding_row; repeat constructor; discriminate).
  split; [exact Hr|].
  apply (proj2 (@X3_index_out_of_range_iff_total_below_draw binary64 binary64_laws
                  rounding_row (9007199254740991 # 9007199254740992)%Q Hr)).
  intros d Hd. vm_compute in Hd. injection Hd as <-. reflexivity.
Defined.

(** * Further properties of a pass *)

Lemma count_true_cons (b : bool) (m : list bool) :
  count_true (b :: m) = (if b then 1 else 0) + count_true m.
Proof. unfold count_true. simpl. now destruct b. Qed.

Lemma select_scatter {A : Type} (mask : list bool) :
  forall x v : list A,
    length mask = length x -> length v = count_true mask ->
    select mask (scatter mask x v) = v.
Proof.
  induction mask as [|b m IH]; intros [|a t] v Hx Hv; simpl in Hx; try discriminate.
  - destruct v; [reflexivity | discriminate].
  - rewrite count_true_cons in Hv. destruct b; simpl.
    + destruct v as [|w v]; [discriminate|]. simpl in Hv |- *. f_equal.
      apply IH; lia.
    + apply IH; lia.
Qed.

Lemma select_nil {A : Type} (mask : list bool) : select mask (@nil A) = [].
Proof. now destruct mask. Qed.

Lemma select_zip_with {A B C : Type} (f : A -> B -> C) (mask : list bool) :
  forall (a : list A) (b : list B),
    select mask (zip_with f a b) = zip_with f (select mask a) (select mask b).
Proof.
  induction mask as [|m mask IH]; intros a b; [reflexivity|].
  destruct a as [|x a]; [now rewrite !select_nil|].
  destruct b as [|y b].
  - rewrite select_nil. simpl. now destruct (if m then _ else _).
  - simpl. destruct m; simpl; now rewrite IH.
Qed.

Lemma rows_of_singletons {A : Type} (d : list A) :
  rows_of (length d) 1 d = map (fun t => [t]) d.
Proof.
  assert (E : concat (map (fun t => [t]) d) = d).
  { induction d as [|t d IH]; simpl; [reflexivity | now rewrite IH]. }
  pose proof (rows_of_concat 1 (map (fun t => [t]) d)) as Hr.
  rewrite length_map, E in Hr. apply Hr.
  apply Forall_map. apply Forall_true. reflexivity.
Qed.

Lemma index_put_exact {A : Type} (x : list A) (mask : list bool) (v : list A) :
  length mask = length x -> length v = count_true mask ->
  index_put x mask v = Ok (scatter mask x v).
Proof.
  intros Hx Hv. unfold index_put.
  rewrite (proj2 (Nat.eqb_eq _ _) Hx), (proj2 (Nat.eqb_eq _ _) Hv). reflexivity.
Qed.

Section StepFacts.
Context {G : Type} `{Generator G} `{Functional} `{FloatFormat} {KVRow : Type}.
Variable self : Sequence KVRow.

Lemma sampler_advances (g : G) (p : tensor Q) (n : nat) :
  snd (vectorized_random_choice g p n)
  = snd (rand_draws g (n * numel (batch_shape p))).
Proof.
  unfold vectorized_random_choice, torch_rand.
  change (numel (n :: batch_shape p ++ [1])) with (n * numel (batch_shape p ++ [1])).
  rewrite numel_app_1. now destruct (rand_draws g (n * numel (batch_shape p))).
Qed.

(** X5: when [step] returns, the token tensor has shape [(samples, n_seqs, 1)]
    with one entry per sample and sequence, the probabilities are those of the
    proposal repeated [samples] times under a new leading axis, the state is
    the one the model returned, and the generator has moved on by
    [samples * n_seqs] draws. *)
Theorem X5_step_output_shapes (g : G) (npt : nat) (toks mask : list (list Z))
    (samples : nat) (pkv : option (KVCache KVRow))
    (next : tensor Z) (probs : tensor Q) (pkv' : option (KVCache KVRow)) (g' : G) :
  step self g npt toks mask samples pkv = Ok (next, probs, pkv', g') ->
  let pr := softmax (create_proposal self (map (drop npt) toks)
                       (fst (forward (model self) toks mask pkv))) in
  shape next = [samples; length toks; 1] /\
  length (data next) = samples * length toks /\
  shape probs = samples :: shape pr /\
  data probs = concat (replicate samples (data pr)) /\
  pkv' = snd (forward (model self) toks mask pkv) /\
  g' = snd (rand_draws g (samples * length toks)).
Proof.
  intros Hstep pr. unfold step in Hstep. subst pr.
  destruct (forward (model self) toks mask pkv) as [probs0 pkv0]. cbn [fst snd].
  set (pr := softmax (create_proposal self (map (drop npt) toks) probs0)) in *.
  destruct (decide (batch_shape pr = [length toks])) as [Hshape|]; [|discriminate].
  pose proof (sampler_shape g pr samples) as Hs.
  pose proof (sampler_length g pr samples) as Hl.
  pose proof (sampler_advances g pr samples) as Ha.
  destruct (vectorized_random_choice g pr samples) as [idx g1]. simpl in Hs, Hl, Ha.
  injection Hstep as <- <- <- <-. simpl.
  rewrite Hs, Hl, Ha, Hshape. simpl. rewrite Nat.mul_1_r. tauto.
Qed.

End StepFacts.

Lemma X5_step_output_shapes_witness :
  exists next probs pkv' g',
    step demo_two_by_two 7%Z 1 [[1]; [2]]%Z [[1]; [1]]%Z 2 None
    = Ok (next, probs, pkv', g') /\
    shape next = [2; 2; 1] /\ length (data next) = 2 * 2.
Proof.
  assert (E : exists x, step demo_two_by_two 7%Z 1 [[1]; [2]]%Z [[1]; [1]]%Z 2 None = Ok x)
    by (vm_compute; eexists; reflexivity).
  destruct E as [[[[next probs] pkv'] g'] E]. exists next, probs, pkv', g'.
  split; [exact E|].
  pose proof (X5_step_output_shapes demo_two_by_two _ _ _ _ _ _ _ _ _ _ E) as Hx.
  split; [exact (proj1 Hx) | exact (proj1 (proj2 Hx))].
Defined.

Lemma mask_select_exact {A : Type} (x : list A) (mask : list bool) :
  length mask = length x -> mask_select x mask = Ok (select mask x).
Proof. intros Hl. unfold mask_select. now rewrite (proj2 (Nat.eqb_eq _ _) Hl). Qed.

Section PassFacts.
Context {G : Type} `{Generator G} `{Functional} `{FloatFormat} {KVRow : Type}.
Variable self : Sequence KVRow.
Variables batch_size npt : nat.

Lemma proposal_unfold (st : @state G KVRow) :
  proposal self npt st
  = softmax (create_proposal self
      (map (drop npt) (select (map negb (finished st)) (token_ids st)))
      (fst (forward (model self)
              (select (map negb (finished st)) (token_ids st))
              (select (map negb (finished st)) (attention_mask st))
              (unfinished_past_key_values st)))).
Proof. reflexivity. Qed.

Lemma sampled_column (idx : tensor Z) (n : nat) :
  shape idx = [1; n] -> length (data idx) = n ->
  matrix_rows (squeeze0 (unsqueeze_last idx)) = map (fun t => [t]) (data idx).
Proof.
  intros Hs Hl. unfold unsqueeze_last, squeeze0. rewrite Hs. simpl.
  unfold matrix_rows, batch_shape, last_dim. simpl. rewrite Nat.mul_1_r, <- Hl.
  apply rows_of_singletons.
Qed.

(** What a pass that raises nothing has sampled. *)
Lemma loop_body_sample (st st' : @state G KVRow) :
  loop_body self batch_size npt st = Ok st' ->
  batch_shape (proposal self npt st) = [num_unfinished st] /\
  rng st' = snd (vectorized_random_choice (rng st) (proposal self npt st) 1) /\
  select (map negb (finished st)) (token_ids st')
  = zip_with app (fst (fst (forward_args st)))
      (map (fun t => [t])
           (data (fst (vectorized_random_choice (rng st) (proposal self npt st) 1)))).
Proof.
  intros Hb. rewrite proposal_unfold. unfold loop_body in Hb.
  apply bind_Ok in Hb as [utok [Hutok Hb]].
  apply bind_Ok in Hb as [umask [Humask Hb]].
  apply bind_Ok in Hb as [[[[unext probs] pkv'] g'] [Hstep Hb]].
  apply bind_Ok in Hb as [next [Hnext Hb]].
  apply bind_Ok in Hb as [toks' [Htoks' Hb]].
  apply bind_Ok in Hb as [active [_ Hb]].
  apply bind_Ok in Hb as [flags [_ Hb]].
  apply bind_Ok in Hb as [fin' [_ Hb]].
  apply bind_Ok in Hb as [kv' [_ Hb]].
  injection Hb as <-. cbn [token_ids rng].
  apply mask_select_Ok in Hutok as [Hlt [-> Hcount]].
  apply mask_select_Ok in Humask as [_ [-> _]].
  apply concat_cols_Ok in Htoks' as [Hlen' ->].
  unfold step in Hstep.
  destruct (forward (model self) (select (map negb (finished st)) (token_ids st))
              (select (map negb (finished st)) (attention_mask st))
              (unfinished_past_key_values st)) as [probs0 pkv0].
  cbn [fst].
  set (pr := softmax (create_proposal self
                (map (drop npt) (select (map negb (finished st)) (token_ids st)))
                probs0)) in *.
  destruct (decide (batch_shape pr = [length (select (map negb (finished st))
                                                    (token_ids st))]))
    as [Hshape|]; [|discriminate].
  pose proof (sampler_shape (rng st) pr 1) as Hs.
  pose proof (sampler_length (rng st) pr 1) as Hl.
  destruct (vectorized_random_choice (rng st) pr 1) as [idx g1]. simpl in Hs, Hl.
  injection Hstep as <- _ _ <-. cbn [fst snd].
  rewrite Hshape in Hs, Hl. simpl in Hl. rewrite Hcount in *.
  rewrite Nat.add_0_r, Nat.mul_1_r in Hl.
  split; [exact Hshape|]. split; [reflexivity|].
  rewrite (sampled_column idx _ Hs Hl) in Hnext.
  pose proof (index_put_Ok _ _ _ _ Hnext) as (Hmn & _ & _ & _ & Hsc).
  rewrite Hsc by (rewrite length_map; exact Hl).
  rewrite select_zip_with, select_scatter;
    [reflexivity | exact Hmn | rewrite length_map; exact Hl].
Qed.

(** X4: a pass that raises nothing takes from the generator exactly one draw
    per active row, whatever the probabilities and the tokens sampled. *)
Theorem X4_pass_consumes_one_draw_per_active_row (st st' : @state G KVRow) :
  loop_body self batch_size npt st = Ok st' ->
  rng st' = snd (rand_draws (rng st) (num_unfinished st)).
Proof.
  intros Hb. destruct (loop_body_sample st st' Hb) as (Hshape & Hrng & _).
  rewrite Hrng, sampler_advances, Hshape. simpl.
  now rewrite Nat.add_0_r, Nat.mul_1_r.
Qed.

(** X17: in a pass that raises nothing the [j]-th active row is extended by
    the index sampled for it: the number of cumulative sums of row [j] of the
    proposal that are below the [j]-th draw of the pass. *)
Theorem X17_active_row_gets_its_sampled_index (st st' : @state G KVRow)
    (j : nat) (row : list Z) :
  loop_body self batch_size npt st = Ok st' ->
  fst (fst (forward_args st)) !! j = Some row ->
  exists u : Q,
    fst (rand_draws (rng st) (num_unfinished st)) !! j = Some u /\
    select (map negb (finished st)) (token_ids st') !! j
    = Some (row ++ [Z.of_nat
                      (count_below
                         (cumsum (row_at (last_dim (proposal self npt st))
                                         (data (proposal self npt st)) j))
                         u)]).
Proof.
  intros Hb Hrow. pose proof (loop_body_pass self _ _ _ _ Hb) as Hp.
  destruct (loop_body_sample st st' Hb) as (Hshape & _ & Hsel).
  assert (Hj : j < num_unfinished st).
  { apply lookup_lt_Some in Hrow. unfold forward_args in Hrow. simpl in Hrow.
    rewrite length_select in Hrow; [exact Hrow|].
    destruct Hp as [? ? Hlt]. now rewrite length_map. }
  assert (HB : numel (batch_shape (proposal self npt st)) = num_unfinished st)
    by (rewrite Hshape; simpl; lia).
  destruct (sampler_entry (rng st) (proposal self npt st) 1 0 j) as [u [Hu [_ Hidx]]];
    [lia | now rewrite HB|].
  rewrite HB in Hu, Hidx. simpl in Hu, Hidx. rewrite Nat.add_0_r in Hu.
  exists u. split; [exact Hu|].
  rewrite Hsel, lookup_zip_with, Hrow, lookup_map, Hidx. reflexivity.
Qed.

(** X6: when the scores that come back from the model, the proposal hook and
    the softmax do not have one row per active sequence, the pass stops on
    the assertion of [step]. *)
Theorem X6_misaligned_scores_raise_assertion (st : @state G KVRow) :
  length (finished st) = length (token_ids st) ->
  length (finished st) = length (attention_mask st) ->
  batch_shape (proposal self npt st) <> [num_unfinished st] ->
  loop_body self batch_size npt st = Raise AssertionError.
Proof.
  intros Ht Hm Hne. rewrite proposal_unfold in Hne. unfold loop_body.
  rewrite !mask_select_exact by (rewrite length_map; assumption). cbn [bind].
  unfold step.
  destruct (forward (model self) (select (map negb (finished st)) (token_ids st))
              (select (map negb (finished st)) (attention_mask st))
              (unfinished_past_key_values st)) as [probs0 pkv0].
  cbn [fst] in Hne.
  rewrite length_select by (rewrite length_map; exact Ht).
  destruct (decide _) as [Heq|]; [|reflexivity].
  exfalso. apply Hne. exact Heq.
Qed.

(** A pass through to the call of the termination hook: when the shapes fit
    and the assertion holds, an exception of the hook is what the pass
    raises. *)
Lemma loop_body_hook_raises (cols : nat) (st : @state G KVRow) (e : exn) :
  shaped batch_size cols st ->
  batch_shape (proposal self npt st) = [num_unfinished st] ->
  (forall rows, is_finished self rows = Raise e) ->
  loop_body self batch_size npt st = Raise e.
Proof.
  intros (Ht & Hm & Hf & _ & _) Hshape Hhook. rewrite proposal_unfold in Hshape.
  unfold loop_body.
  rewrite !mask_select_exact by (rewrite length_map; lia). cbn [bind].
  unfold step.
  destruct (forward (model self) (select (map negb (finished st)) (token_ids st))
              (select (map negb (finished st)) (attention_mask st))
              (unfinished_past_key_values st)) as [probs0 pkv0].
  cbn [fst] in Hshape.
  set (pr := softmax (create_proposal self
                (map (drop npt) (select (map negb (finished st)) (token_ids st)))
                probs0)) in *.
  rewrite length_select by (rewrite length_map; lia).
  destruct (decide (batch_shape pr = [count_true (map negb (finished st))]))
    as [_|Hno]; [|contradiction].
  pose proof (sampler_shape (rng st) pr 1) as Hs.
  pose proof (sampler_length (rng st) pr 1) as Hl.
  destruct (vectorized_random_choice (rng st) pr 1) as [idx g1]. simpl in Hs, Hl.
  rewrite Hshape in Hs, Hl. simpl in Hl. rewrite Nat.add_0_r, Nat.mul_1_r in Hl.
  cbn [bind]. rewrite (sampled_column idx _ Hs Hl).
  rewrite index_put_exact
    by (rewrite ?length_map, ?length_replicate; unfold num_unfinished in *; lia).
  cbn [bind]. unfold concat_cols.
  rewrite length_scatter, length_replicate, Ht, Nat.eqb_refl. cbn [bind].
  rewrite mask_select_exact
    by (rewrite length_map, length_zip_with, length_scatter, length_replicate; lia).
  cbn [bind]. rewrite Hhook. reflexivity.
Qed.

End PassFacts.

(** * Further properties of the loop *)

Lemma Forall_select {A : Type} (P : A -> Prop) (mask : list bool) :
  forall x : list A, Forall P x -> Forall P (select mask x).
Proof.
  induction mask as [|b m IH]; intros [|a t] Hx; simpl; try constructor.
  inversion_clear Hx as [|? ? Ha Ht]. destruct b; [constructor; [exact Ha|]|]; now apply IH.
Qed.

Lemma count_true_scatter_le (fin : list bool) :
  forall v : list bool,
    count_true (map negb (scatter (map negb fin) fin v)) <= count_true (map negb fin).
Proof.
  induction fin as [|b fin IH]; intros v; simpl; [lia|].
  destruct b; simpl.
  - rewrite !count_true_cons. simpl. apply IH.
  - destruct v as [|w v]; simpl; rewrite !count_true_cons.
    + specialize (IH []). simpl. lia.
    + specialize (IH v). destruct w; simpl; lia.
Qed.

Lemma scatter_negb_all_true (fin : list bool) :
  forall v : list bool,
    Forall (eq true) v -> length v = count_true (map negb fin) ->
    Forall (eq true) (scatter (map negb fin) fin v).
Proof.
  induction fin as [|b fin IH]; intros v Hv Hl; simpl; [constructor|].
  simpl in Hl. rewrite count_true_cons in Hl. destruct b; simpl in *.
  - constructor; [reflexivity | now apply IH].
  - destruct v as [|w v]; [discriminate|]. inversion_clear Hv as [|? ? Hw Hv'].
    constructor; [exact Hw | apply IH; [exact Hv' | simpl in Hl; lia]].
Qed.

Lemma forallb_all_true (l : list bool) :
  Forall (eq true) l -> forallb (fun b : bool => b) l = true.
Proof. induction 1 as [|b l <- _ IH]; [reflexivity | exact IH]. Qed.

Section LoopExtras.
Context {G : Type} `{Generator G} `{Functional} `{FloatFormat} {KVRow : Type}.
Variable self : Sequence KVRow.
Variables batch_size npt : nat.

Lemma pass_flags_scatter (st st' : @state G KVRow) :
  pass self batch_size npt st st' ->
  exists v, finished st' = scatter (map negb (finished st)) (finished st) v.
Proof.
  intros [next flags _ _ _ _ _ _ _ _ _ Hfin _ _]. unfold index_put in Hfin.
  destruct (_ =? _); [|discriminate].
  destruct (_ =? _).
  - injection Hfin as <-. eauto.
  - destruct flags as [|w [|w' flags]]; try discriminate. injection Hfin as <-. eauto.
Qed.

(** X14: the number of active rows never goes up from one pass to a later
    one. *)
Theorem X14_active_rows_never_increase (k : nat) (st st' : @state G KVRow) :
  iterates self batch_size npt k st st' ->
  num_unfinished st' <= num_unfinished st.
Proof.
  induction 1 as [st|k st st1 st2 _ Hb _ IH]; [lia|].
  apply loop_body_pass in Hb. destruct (pass_flags_scatter st st1 Hb) as [v Hv].
  pose proof (count_true_scatter_le (finished st) v) as Hle.
  unfold num_unfinished in *. rewrite Hv in IH. lia.
Qed.

(** X15: after [k] passes every row of the attention mask is the row it was
    followed by [k] ones, so the mask the tokenizer gave for the prompt is
    kept as it was. *)
Theorem X15_mask_keeps_prompt_part (k : nat) (st st' : @state G KVRow) :
  iterates self batch_size npt k st st' ->
  attention_mask st' = map (fun r => r ++ replicate k 1%Z) (attention_mask st).
Proof.
  induction 1 as [st|k st st1 st2 _ Hb _ IH].
  - rewrite <- (map_id (attention_mask st)) at 1. apply map_ext.
    intros r. simpl. now rewrite app_nil_r.
  - apply loop_body_pass in Hb. destruct Hb as [next flags _ _ _ _ _ _ _ Hmask _ _ _ _].
    rewrite IH, Hmask, expand_attention_mask_map, map_map. apply map_ext.
    intros r. now rewrite <- app_assoc.
Qed.

(** X12: with a termination hook that flags every row it is given, one pass
    finishes all rows: from any state the loop makes at most one pass. *)
Theorem X12_always_true_hook_stops_after_one_pass (k : nat) (st st' : @state G KVRow) :
  (forall rows, is_finished self rows = Ok (map (fun _ => true) rows)) ->
  iterates self batch_size npt k st st' ->
  k <= 1 /\ (k = 1 -> forallb (fun b : bool => b) (finished st') = true).
Proof.
  intros Hhook Hk.
  assert (Hone : forall s s' : @state G KVRow,
             loop_body self batch_size npt s = Ok s' ->
             forallb (fun b : bool => b) (finished s') = true).
  { intros s s' Hb. apply loop_body_pass in Hb.
    destruct Hb as [next flags Hlt _ Hnl _ _ _ Htok _ Hflags Hfin _ _].
    rewrite Hhook in Hflags. injection Hflags as <-.
    assert (Hlen : length (map (fun _ : list Z => true)
                     (map (drop npt) (select (map negb (finished s)) (token_ids s'))))
                   = count_true (map negb (finished s))).
    { rewrite !length_map, length_select; [reflexivity|].
      rewrite length_map, Htok, length_zip_with. lia. }
    apply index_put_Ok in Hfin as (_ & _ & _ & _ & Hsc). rewrite (Hsc Hlen).
    apply forallb_all_true, scatter_negb_all_true; [|exact Hlen].
    apply Forall_map. apply Forall_true. reflexivity. }
  destruct Hk as [st|k st st1 st2 _ Hb Hrest]; [split; [lia | discriminate]|].
  pose proof (Hone _ _ Hb) as Hall.
  destruct Hrest as [st1|k st1 st2 st3 Hd _ _].
  - split; [lia | intros _; exact Hall].
  - unfold loop_done in Hd. rewrite Hall in Hd. discriminate Hd.
Qed.

(** X11: when the loop ends without an exception after [k] passes, every
    row has the prompt and [k] more tokens, and either every row is flagged
    finished or [k] is the configured [max_tokens]. *)
Theorem X11_loop_exit_condition (cols fuel : nat) (st st' : @state G KVRow) :
  shaped batch_size (npt + cols) st ->
  generate fuel self batch_size npt st = Some (Ok st') ->
  exists k,
    iterates self batch_size npt k st st' /\
    Forall (fun r => length r = npt + cols + k) (token_ids st') /\
    (forallb (fun b : bool => b) (finished st') = true \/
     max_tokens self = Some (Z.of_nat (cols + k))).
Proof.
  intros Hs Hg. destruct (generate_iterates self _ _ _ _ _ Hg) as [k [Hk [_ Hd]]].
  pose proof (iterates_shaped self _ _ _ _ _ Hk _ Hs) as (Ht & _ & Hf & Hrt & _).
  exists k. split; [exact Hk|]. split; [exact Hrt|].
  unfold loop_done in Hd. apply orb_prop in Hd as [Hall|Hm]; [left; exact Hall|].
  destruct (max_tokens self) as [m|]; [|discriminate]. apply Z.eqb_eq in Hm.
  destruct (token_ids st') as [|r rows].
  - left. simpl in Ht. subst batch_size. now destruct (finished st').
  - right. inversion_clear Hrt as [|? ? Hr _]. simpl in Hm. f_equal. lia.
Qed.

(** X13: with no token budget (or a negative one) and a termination hook
    that never flags a row, a loop over at least one row never ends: no
    amount of fuel makes it return. *)
Theorem X13_unbounded_loop_never_returns (cols fuel : nat) (st st' : @state G KVRow) :
  match max_tokens self with Some m => (m < 0)%Z | None => True end ->
  (forall rows, is_finished self rows = Ok (map (fun _ => false) rows)) ->
  shaped batch_size (npt + cols) st ->
  0 < batch_size ->
  Forall (eq false) (finished st) ->
  generate fuel self batch_size npt st <> Some (Ok st').
Proof.
  intros Hmax Hhook Hs Hpos Hfin Hg.
  destruct (generate_iterates self _ _ _ _ _ Hg) as [k [Hk [_ Hd]]].
  assert (Hinv : Forall (eq false) (finished st')).
  { clear Hg Hd Hs. induction Hk as [st|k st st1 st2 _ Hb _ IH]; [exact Hfin|].
    apply IH. apply loop_body_pass in Hb.
    destruct Hb as [next flags _ _ _ _ _ _ _ _ Hflags Hput _ _].
    rewrite Hhook in Hflags. injection Hflags as <-.
    apply index_put_Ok in Hput as (_ & _ & _ & Hall & _).
    apply Hall; [exact Hfin|]. apply Forall_map. apply Forall_true. reflexivity. }
  pose proof (iterates_shaped self _ _ _ _ _ Hk _ Hs) as (Ht & _ & Hf & Hrt & _).
  unfold loop_done in Hd. apply orb_prop in Hd as [Hall|Hm].
  - destruct (finished st') as [|b fin]; [simpl in Hf; lia|].
    inversion_clear Hinv as [|? ? Hb _]. subst b. discriminate Hall.
  - destruct (max_tokens self) as [m|]; [|discriminate]. apply Z.eqb_eq in Hm.
    destruct (token_ids st') as [|r rows]; simpl in Hm; [simpl in Ht|]; try lia.
    inversion_clear Hrt as [|? ? Hr _]. lia.
Qed.

(** X16: at every pass of an invocation the token slice and the mask slice
    handed to the model have one row per active sequence and the same
    number of columns, the prompt length plus the passes made. *)
Theorem X16_forward_slices_are_aligned (cols k : nat) (st st' : @state G KVRow) :
  shaped batch_size cols st ->
  iterates self batch_size npt k st st' ->
  length (fst (fst (forward_args st'))) = num_unfinished st' /\
  length (snd (fst (forward_args st'))) = num_unfinished st' /\
  Forall (fun r => length r = cols + k) (fst (fst (forward_args st'))) /\
  Forall (fun r => length r = cols + k) (snd (fst (forward_args st'))).
Proof.
  intros Hs Hk.
  pose proof (iterates_shaped self _ _ _ _ _ Hk _ Hs) as (Ht & Hm & Hf & Hrt & Hrm).
  unfold forward_args, num_unfinished. cbn [fst snd].
  rewrite !length_select by (rewrite length_map; lia).
  repeat split; try reflexivity; now apply Forall_select.
Qed.

(** X7: with the [is_finished] of the base class, which raises
    [NotImplementedError], a pass whose shapes fit raises that exception, and
    a call returns a completion only if the loop ends before its first pass:
    the completion is then the decoding of the starting state. *)
Theorem X7_base_is_finished_stops_every_pass :
  (forall rows, is_finished self rows = Raise NotImplementedError) ->
  (forall cols (st : @state G KVRow),
     shaped batch_size cols st ->
     batch_shape (proposal self npt st) = [num_unfinished st] ->
     loop_body self batch_size npt st = Raise NotImplementedError) /\
  (forall fuel entropy p samples g res,
     call fuel self entropy p samples g = Some (Ok res) ->
     exists bs n (st0 : @state G KVRow),
       initial self entropy p samples g = Ok (bs, n, st0) /\
       loop_done self n st0 = true /\
       res = finish self n st0).
Proof.
  intros Hhook. split.
  - intros cols st Hs Hshape.
    now apply (loop_body_hook_raises self batch_size npt cols st NotImplementedError).
  - intros fuel entropy p samples g res Hcall. unfold call in Hcall.
    destruct (initial self entropy p samples g) as [[[bs n] st0]|e]; [|discriminate].
    destruct (generate fuel self bs n st0) as [[st'|e]|] eqn:Hgen; try discriminate.
    injection Hcall as <-.
    destruct (generate_iterates self _ _ _ _ _ Hgen) as [k [Hk [_ Hd]]].
    exists bs, n, st0. destruct Hk as [st0|k st0 st1 st2 _ Hb _].
    + repeat split; assumption.
    + apply loop_body_pass in Hb.
      destruct Hb as [next flags _ _ _ _ _ _ _ _ Hflags _ _ _].
      rewrite Hhook in Hflags. discriminate Hflags.
Qed.

End LoopExtras.

(** * Further properties of the call *)

Lemma data_squeeze0 {A : Type} (t : tensor A) : data (squeeze0 t) = data t.
Proof. unfold squeeze0. now destruct (shape t) as [|[|[|n]] s]. Qed.

Lemma squeeze0_matrix {A : Type} (P L : nat) (d : list A) :
  shape (squeeze0 (mkTensor [P; L] d)) <> [] /\
  numel (batch_shape (squeeze0 (mkTensor [P; L] d))) = P /\
  List.last (shape (squeeze0 (mkTensor [P; L] d))) 0 = L.
Proof.
  unfold squeeze0, batch_shape. destruct P as [|[|P]]; simpl;
    repeat split; try discriminate; lia.
Qed.

Lemma concat_replicate_concat {A : Type} (n : nat) (rows : list (list A)) :
  concat (replicate n (concat rows)) = concat (concat (replicate n rows)).
Proof.
  induction n as [|n IH]; simpl; [reflexivity|]. now rewrite concat_app, IH.
Qed.

Lemma Forall_concat_replicate {A : Type} (P : A -> Prop) (n : nat) (l : list A) :
  Forall P l -> Forall P (concat (replicate n l)).
Proof.
  intros Hl. induction n as [|n IH]; simpl; [constructor|].
  apply Forall_app. split; assumption.
Qed.

Lemma length_concat_rows {A : Type} (n : nat) (R : list (list A)) :
  Forall (fun r => length r = n) R -> length (concat R) = length R * n.
Proof.
  induction 1 as [|r R Hr _ IH]; simpl; [reflexivity|].
  rewrite length_app, IH, Hr. reflexivity.
Qed.

Section CallExtras.
Context {G : Type} `{Generator G} `{Functional} `{FloatFormat} {KVRow : Type}.
Variable self : Sequence KVRow.

(** The code before the loop when every check passes. *)
Lemma initial_exact (entropy : Z) (p : prompt) (samples : nat) (g : option G)
    (tok0 mask0 : tensor Z) (bs n : nat) :
  encode (tokenizer (model self)) p = (tok0, mask0) ->
  shape (squeeze0 tok0) <> [] ->
  bs = samples * numel (batch_shape (squeeze0 tok0)) ->
  n = List.last (shape (squeeze0 tok0)) 0 ->
  samples * length (data tok0) = bs * n ->
  samples * length (data mask0) = bs * n ->
  initial self entropy p samples g
  = Ok (bs, n,
        mkState (rows_of bs n (concat (replicate samples (data tok0))))
                (rows_of bs n (concat (replicate samples (data mask0))))
                (replicate bs false) None
                (match g with Some g => g | None => manual_seed entropy end)).
Proof.
  intros Henc Hne -> -> Ht Hm. unfold initial. rewrite Henc.
  destruct (shape (squeeze0 tok0)) as [|d ds] eqn:Hshape; [contradiction|].
  unfold reshape, broadcast_to. cbn [data shape].
  rewrite !length_concat_replicate, !data_squeeze0.
  change (numel [samples * numel (batch_shape (squeeze0 tok0)); List.last (d :: ds) 0])
    with (samples * numel (batch_shape (squeeze0 tok0)) * (List.last (d :: ds) 0 * 1)).
  rewrite Nat.mul_1_r.
  rewrite (proj2 (Nat.eqb_eq _ _) Ht), (proj2 (Nat.eqb_eq _ _) Hm). cbn [bind].
  unfold matrix_rows, batch_shape, last_dim. cbn [shape data removelast List.last numel fold_right].
  rewrite !Nat.mul_1_r. reflexivity.
Qed.

(** The code before the loop on a matrix of prompt rows. *)
Lemma initial_matrix (entropy : Z) (p : prompt) (samples : nat) (g : option G)
    (rows mrows : list (list Z)) (n : nat) :
  encode (tokenizer (model self)) p
  = (mkTensor [length rows; n] (concat rows), mkTensor [length rows; n] (concat mrows)) ->
  Forall (fun r => length r = n) rows ->
  Forall (fun r => length r = n) mrows ->
  length mrows = length rows ->
  initial self entropy p samples g
  = Ok (samples * length rows, n,
        mkState (rows_of (samples * length rows) n
                         (concat (replicate samples (concat rows))))
                (rows_of (samples * length rows) n
                         (concat (replicate samples (concat mrows))))
                (replicate (samples * length rows) false) None
                (match g with Some g => g | None => manual_seed entropy end)).
Proof.
  intros Henc Hrows Hmrows Hlen.
  destruct (squeeze0_matrix (length rows) n (concat rows)) as (Hne & Hb & Hl).
  apply (initial_exact entropy p samples g _ _ _ _ Henc Hne);
    cbn [data]; rewrite ?Hb, ?Hl, ?(length_concat_rows n) by assumption;
    try reflexivity; lia.
Qed.

(** X18: for prompts encoded as the rows [rows], all of length [n], with the
    mask rows [mrows], and any sample count, the code before the loop raises
    nothing and the batch it builds is [samples] copies of the prompt rows
    one after the other (and likewise for the mask): row [s * P + p] is
    prompt [p]; no row is finished and there is no incremental state. *)
Theorem X18_batch_is_copies_of_the_prompts (entropy : Z) (p : prompt) (samples : nat)
    (g : option G) (rows mrows : list (list Z)) (n : nat) :
  encode (tokenizer (model self)) p
  = (mkTensor [length rows; n] (concat rows), mkTensor [length rows; n] (concat mrows)) ->
  Forall (fun r => length r = n) rows ->
  Forall (fun r => length r = n) mrows ->
  length mrows = length rows ->
  exists st0 : @state G KVRow,
    initial self entropy p samples g = Ok (samples * length rows, n, st0) /\
    token_ids st0 = concat (replicate samples rows) /\
    attention_mask st0 = concat (replicate samples mrows) /\
    finished st0 = replicate (samples * length rows) false /\
    unfinished_past_key_values st0 = None /\
    forall s q r, s < samples -> rows !! q = Some r ->
      token_ids st0 !! (s * length rows + q) = Some r.
Proof.
  intros Henc Hrows Hmrows Hlen.
  assert (Hrep : forall R : list (list Z),
             length (concat (replicate samples R)) = samples * length R).
  { intros R. apply length_concat_replicate. }
  eexists. split;
    [exact (initial_matrix entropy p samples g rows mrows n Henc Hrows Hmrows Hlen)|].
  cbn [token_ids attention_mask finished unfinished_past_key_values data].
  assert (Htok : rows_of (samples * length rows) n
                   (concat (replicate samples (concat rows)))
                 = concat (replicate samples rows)).
  { rewrite concat_replicate_concat, <- Hrep. apply rows_of_concat.
    now apply Forall_concat_replicate. }
  assert (Hmask : rows_of (samples * length rows) n
                    (concat (replicate samples (concat mrows)))
                  = concat (replicate samples mrows)).
  { rewrite concat_replicate_concat, <- Hlen, <- Hrep. apply rows_of_concat.
    now apply Forall_concat_replicate. }
  rewrite Htok, Hmask. repeat split; try reflexivity.
  intros s q r Hs Hq. clear -Hs Hq. revert s Hs.
  induction samples as [|m IH]; intros s Hs; [lia|]. simpl.
  destruct s as [|s].
  - simpl. rewrite lookup_app_l by (eapply lookup_lt_Some; exact Hq). exact Hq.
  - rewrite lookup_app_r by (simpl; lia).
    replace (S s * length rows + q - length rows) with (s * length rows + q)
      by (simpl; lia).
    apply IH. lia.
Qed.

(** X8: for [P] prompts of equal encoded length and [samples] samples, with
    a decoder and a postprocessing hook that give one string per row, a call
    that returns gives a single string when [samples * P = 1] and otherwise
    a list of [samples * P] strings. *)
Theorem X8_single_string_iff_one_row (fuel : nat) (entropy : Z) (p : prompt)
    (samples : nat) (g : option G) (rows mrows : list (list Z)) (n : nat)
    (res : completion) :
  encode (tokenizer (model self)) p
  = (mkTensor [length rows; n] (concat rows), mkTensor [length rows; n] (concat mrows)) ->
  Forall (fun r => length r = n) rows ->
  Forall (fun r => length r = n) mrows ->
  length mrows = length rows ->
  (forall m, length (decode (tokenizer (model self)) m) = length m) ->
  (forall l, length (postprocess_completions self l) = length l) ->
  call fuel self entropy p samples g = Some (Ok res) ->
  (samples * length rows = 1 -> exists s, res = Single s) /\
  (samples * length rows <> 1 ->
   exists l, res = Many l /\ length l = samples * length rows).
Proof.
  intros Henc Hrows Hmrows Hlen Hdec Hpost Hcall.
  pose proof (initial_matrix entropy p samples g rows mrows n
                Henc Hrows Hmrows Hlen) as Hinit.
  pose proof (initial_Ok self _ _ _ _ _ _ _ Hinit) as (_ & _ & _ & _ & _ & _ & _ & Hs0).
  unfold call in Hcall. rewrite Hinit in Hcall.
  destruct (generate fuel self (samples * length rows) n _) as [[st'|e]|] eqn:Hgen;
    try discriminate.
  injection Hcall as <-.
  destruct (generate_iterates self _ _ _ _ _ Hgen) as [k [Hk _]].
  pose proof (iterates_shaped self _ _ _ _ _ Hk _ Hs0) as (Ht & _).
  unfold finish.
  set (l := postprocess_completions self
              (decode (tokenizer (model self)) (map (drop n) (token_ids st')))).
  assert (Hl : length l = samples * length rows)
    by (unfold l; rewrite Hpost, Hdec, length_map; exact Ht).
  clearbody l. split; intros Hn.
  - destruct l as [|s [|s' l]]; simpl in Hl; try lia. exists s. reflexivity.
  - exists l. split; [|exact Hl].
    destruct l as [|s [|s' l]]; simpl in Hl; try lia; reflexivity.
Qed.

(** X9: with [samples = 0] the batch is empty: whatever the prompt, the
    model and the fuel, the call makes no pass and returns what the decoder
    and the postprocessing hook give for no rows. *)
Theorem X9_zero_samples_returns_without_a_pass (fuel : nat) (entropy : Z) (p : prompt)
    (g : option G) :
  shape (squeeze0 (fst (encode (tokenizer (model self)) p))) <> [] ->
  call fuel self entropy p 0 g
  = Some (Ok (single_or_list
                (postprocess_completions self (decode (tokenizer (model self)) [])))).
Proof.
  intros Hne. destruct (encode (tokenizer (model self)) p) as [tok0 mask0] eqn:Henc.
  cbn [fst] in Hne. unfold call.
  rewrite (initial_exact entropy p 0 g tok0 mask0 0
             (List.last (shape (squeeze0 tok0)) 0) Henc Hne)
    by reflexivity.
  destruct fuel; reflexivity.
Qed.

(** X10: when the attention mask of the tokenizer does not have as many
    elements as the token ids, a call with at least one sample raises
    [RuntimeError] before the loop starts. *)
Theorem X10_mask_size_mismatch_raises (fuel : nat) (entropy : Z) (p : prompt)
    (samples : nat) (g : option G) (tok0 mask0 : tensor Z) :
  encode (tokenizer (model self)) p = (tok0, mask0) ->
  shape (squeeze0 tok0) <> [] ->
  tensor_wf (squeeze0 tok0) ->
  0 < samples ->
  length (data mask0) <> length (data tok0) ->
  call fuel self entropy p samples g = Some (Raise RuntimeError).
Proof.
  intros Henc Hne Hwf Hpos Hmis. unfold call, initial. rewrite Henc.
  unfold tensor_wf in Hwf. rewrite numel_split, data_squeeze0 in Hwf.
  destruct (shape (squeeze0 tok0)) as [|d ds] eqn:Hshape; [contradiction|].
  assert (Hlast : List.last (d :: ds) 1 = List.last (d :: ds) 0).
  { clear. revert d. induction ds as [|e ds IH]; intros d; [reflexivity|].
    exact (IH e). }
  unfold reshape, broadcast_to. cbn [data shape].
  rewrite !length_concat_replicate, !data_squeeze0.
  change (numel [samples * numel (batch_shape (squeeze0 tok0)); List.last (d :: ds) 0])
    with (samples * numel (batch_shape (squeeze0 tok0)) * (List.last (d :: ds) 0 * 1)).
  rewrite Nat.mul_1_r. unfold batch_shape. rewrite Hshape, <- Hlast.
  assert (Ht : samples * length (data tok0)
               = samples * numel (removelast (d :: ds)) * List.last (d :: ds) 1)
    by (rewrite Hwf; lia).
  rewrite (proj2 (Nat.eqb_eq _ _) Ht). cbn [bind].
  assert (Hm : samples * length (data mask0)
               <> samples * numel (removelast (d :: ds)) * List.last (d :: ds) 1)
    by (rewrite <- Ht; nia).
  rewrite (proj2 (Nat.eqb_neq _ _) Hm). reflexivity.
Qed.

End CallExtras.

(** * The further properties on concrete inputs *)

Lemma demo_once_two_passes : iterates demo_once 2 1 2 demo_once_st0 demo_once_st2.
Proof.
  eapply iterates_S; [reflexivity | exact demo_once_pass1 |].
  eapply iterates_S; [reflexivity | exact demo_once_pass2 | constructor].
Qed.

Lemma demo_once_shaped : shaped 2 1 demo_once_st0.
Proof. unfold shaped. simpl. repeat split; repeat constructor. Qed.

Lemma demo_two_by_two_shaped : shaped 4 (1 + 0) demo_two_by_two_st0.
Proof. unfold shaped. simpl. repeat split; repeat constructor. Qed.

Lemma X4_pass_consumes_one_draw_per_active_row_witness :
  loop_body demo_once 2 1 demo_once_st0 = Ok demo_once_st1 /\
  rng demo_once_st1 = snd (rand_draws (rng demo_once_st0) (num_unfinished demo_once_st0)).
Proof.
  split; [exact demo_once_pass1|].
  exact (X4_pass_consumes_one_draw_per_active_row demo_once 2 1 _ _ demo_once_pass1).
Defined.

Lemma X17_active_row_gets_its_sampled_index_witness :
  (loop_body demo_once 2 1 demo_once_st0 = Ok demo_once_st1 /\
   fst (fst (forward_args demo_once_st0)) !! 1 = Some [1%Z]) /\
  exists u : Q,
    fst (rand_draws (rng demo_once_st0) (num_unfinished demo_once_st0)) !! 1 = Some u /\
    select (map negb (finished demo_once_st0)) (token_ids demo_once_st1) !! 1
    = Some ([1%Z] ++ [Z.of_nat
                        (count_below
                           (cumsum (row_at (last_dim (proposal demo_once 1 demo_once_st0))
                                           (data (proposal demo_once 1 demo_once_st0)) 1))
                           u)]).
Proof.
  split; [split; [exact demo_once_pass1 | reflexivity]|].
  exact (X17_active_row_gets_its_sampled_index demo_once 2 1 _ _ 1 [1%Z]
           demo_once_pass1 eq_refl).
Defined.

Lemma X6_misaligned_scores_raise_assertion_witness :
  (length (finished demo_once_st0) = length (token_ids demo_once_st0) /\
   length (finished demo_once_st0) = length (attention_mask demo_once_st0) /\
   batch_shape (proposal demo_misaligned 1 demo_once_st0)
   <> [num_unfinished demo_once_st0]) /\
  loop_body demo_misaligned 2 1 demo_once_st0 = Raise AssertionError.
Proof.
  assert (Hne : batch_shape (proposal demo_misaligned 1 demo_once_st0)
                <> [num_unfinished demo_once_st0])
    by (intros Heq; vm_compute in Heq; discriminate Heq).
  split; [split; [reflexivity | split; [reflexivity | exact Hne]]|].
  exact (X6_misaligned_scores_raise_assertion demo_misaligned 2 1 demo_once_st0
           eq_refl eq_refl Hne).
Defined.

Lemma X7_base_is_finished_stops_every_pass_witness :
  (forall rows,
     is_finished (base_sequence (model demo_two_by_two) (Some 1%Z)) rows
     = Raise NotImplementedError) /\
  loop_body (base_sequence (model demo_two_by_two) (Some 1%Z)) 4 1 demo_two_by_two_st0
  = Raise NotImplementedError.
Proof.
  assert (Hhook : forall rows,
             is_finished (base_sequence (model demo_two_by_two) (Some 1%Z)) rows
             = Raise NotImplementedError) by (intros rows; reflexivity).
  split; [exact Hhook|].
  apply (proj1 (X7_base_is_finished_stops_every_pass
                  (base_sequence (model demo_two_by_two) (Some 1%Z)) 4 1 Hhook)
           (1 + 0) demo_two_by_two_st0 demo_two_by_two_shaped).
  vm_compute. reflexivity.
Defined.

Lemma X8_single_string_iff_one_row_witness :
  exists res,
    call 5 demo_two_by_two 0 (PromptStr "a") 1 (Some (lcg_seed 7)) = Some (Ok res) /\
    exists s, res = Single s.
Proof.
  assert (E : exists res,
             call 5 demo_two_by_two 0 (PromptStr "a") 1 (Some (lcg_seed 7))
             = Some (Ok res)) by (vm_compute; eexists; reflexivity).
  destruct E as [res E]. exists res. split; [exact E|].
  apply (proj1 (X8_single_string_iff_one_row demo_two_by_two 5 0 (PromptStr "a") 1
                  (Some (lcg_seed 7)) [[1%Z]] [[1%Z]] 1 res eq_refl
                  ltac:(repeat constructor) ltac:(repeat constructor) eq_refl
                  ltac:(intros m; apply length_map) ltac:(intros l; reflexivity) E)).
  reflexivity.
Defined.

Lemma X9_zero_samples_returns_without_a_pass_witness :
  shape (squeeze0 (fst (encode (tokenizer (model demo_two_by_two))
                          (PromptList ["a"; "bb"]%string)))) <> [] /\
  call 0 demo_two_by_two 0 (PromptList ["a"; "bb"]%string) 0 (Some (lcg_seed 7))
  = Some (Ok (Many [])).
Proof.
  assert (Hne : shape (squeeze0 (fst (encode (tokenizer (model demo_two_by_two))
                                        (PromptList ["a"; "bb"]%string)))) <> [])
    by discriminate.
  split; [exact Hne|].
  exact (X9_zero_samples_returns_without_a_pass demo_two_by_two 0 0 _ _ Hne).
Defined.

Lemma X10_mask_size_mismatch_raises_witness :
  call 5 demo_bad_mask 0 (PromptList ["a"; "bb"]%string) 2 (Some (lcg_seed 7))
  = Some (Raise RuntimeError).
Proof.
  apply (X10_mask_size_mismatch_raises demo_bad_mask 5 0 (PromptList ["a"; "bb"]%string)
           2 (Some (lcg_seed 7)) (mkTensor [2; 1] [1; 2]%Z) (mkTensor [1] [1%Z])).
  - reflexivity.
  - discriminate.
  - reflexivity.
  - lia.
  - simpl. lia.
Defined.

Lemma X11_loop_exit_condition_witness :
  (shaped 4 (1 + 0) demo_two_by_two_st0 /\
   generate 5 demo_two_by_two 4 1 demo_two_by_two_st0 = Some (Ok demo_two_by_two_st1)) /\
  exists k,
    iterates demo_two_by_two 4 1 k demo_two_by_two_st0 demo_two_by_two_st1 /\
    Forall (fun r => length r = 1 + 0 + k) (token_ids demo_two_by_two_st1) /\
    (forallb (fun b : bool => b) (finished demo_two_by_two_st1) = true \/
     max_tokens demo_two_by_two = Some (Z.of_nat (0 + k))).
Proof.
  assert (Hg : generate 5 demo_two_by_two 4 1 demo_two_by_two_st0
               = Some (Ok demo_two_by_two_st1)) by (vm_compute; reflexivity).
  split; [split; [exact demo_two_by_two_shaped | exact Hg]|].
  exact (X11_loop_exit_condition demo_two_by_two 4 1 0 5 _ _ demo_two_by_two_shaped Hg).
Defined.

Lemma X12_always_true_hook_stops_after_one_pass_witness :
  exists st1,
    ((forall rows, is_finished (demo_hook_const true None) rows
                   = Ok (map (fun _ => true) rows)) /\
     iterates (demo_hook_const true None) 4 1 1 demo_two_by_two_st0 st1) /\
    forallb (fun b : bool => b) (finished st1) = true.
Proof.
  assert (Hhook : forall rows, is_finished (demo_hook_const true None) rows
                               = Ok (map (fun _ => true) rows))
    by (intros rows; reflexivity).
  assert (E : exists st1, loop_body (demo_hook_const true None) 4 1 demo_two_by_two_st0
                          = Ok st1) by (vm_compute; eexists; reflexivity).
  destruct E as [st1 E]. exists st1.
  assert (Hk : iterates (demo_hook_const true None) 4 1 1 demo_two_by_two_st0 st1)
    by (eapply iterates_S; [reflexivity | exact E | constructor]).
  split; [split; [exact Hhook | exact Hk]|].
  exact (proj2 (X12_always_true_hook_stops_after_one_pass
                  (demo_hook_const true None) 4 1 1 _ _ Hhook Hk) eq_refl).
Defined.

Lemma X13_unbounded_loop_never_returns_witness :
  (match max_tokens (demo_hook_const false (Some (-1)%Z)) with
   | Some m => (m < 0)%Z
   | None => True
   end /\
   (forall rows, is_finished (demo_hook_const false (Some (-1)%Z)) rows
                 = Ok (map (fun _ => false) rows)) /\
   shaped 4 (1 + 0) demo_two_by_two_st0 /\ 0 < 4 /\
   Forall (eq false) (finished demo_two_by_two_st0)) /\
  generate 3 (demo_hook_const false (Some (-1)%Z)) 4 1 demo_two_by_two_st0
  <> Some (Ok demo_two_by_two_st1).
Proof.
  assert (Hm : match max_tokens (demo_hook_const false (Some (-1)%Z)) with
               | Some m => (m < 0)%Z
               | None => True
               end) by reflexivity.
  assert (Hhook : forall rows, is_finished (demo_hook_const false (Some (-1)%Z)) rows
                               = Ok (map (fun _ => false) rows))
    by (intros rows; reflexivity).
  assert (Hpos : 0 < 4) by lia.
  assert (Hfin : Forall (eq false) (finished demo_two_by_two_st0))
    by (repeat constructor).
  split;
    [split; [exact Hm | split; [exact Hhook | split;
       [exact demo_two_by_two_shaped | split; [exact Hpos | exact Hfin]]]]|].
  exact (X13_unbounded_loop_never_returns (demo_hook_const false (Some (-1)%Z)) 4 1 0 3
           _ _ Hm Hhook demo_two_by_two_shaped Hpos Hfin).
Defined.

Lemma X14_active_rows_never_increase_witness :
  iterates demo_once 2 1 2 demo_once_st0 demo_once_st2 /\
  num_unfinished demo_once_st2 <= num_unfinished demo_once_st0.
Proof.
  split; [exact demo_once_two_passes|].
  exact (X14_active_rows_never_increase demo_once 2 1 2 _ _ demo_once_two_passes).
Defined.

Lemma X15_mask_keeps_prompt_part_witness :
  iterates demo_once 2 1 2 demo_once_st0 demo_once_st2 /\
  attention_mask demo_once_st2
  = map (fun r => r ++ replicate 2 1%Z) (attention_mask demo_once_st0).
Proof.
  split; [exact demo_once_two_passes|].
  exact (X15_mask_keeps_prompt_part demo_once 2 1 2 _ _ demo_once_two_passes).
Defined.

Lemma X16_forward_slices_are_aligned_witness :
  (shaped 2 1 demo_once_st0 /\ iterates demo_once 2 1 2 demo_once_st0 demo_once_st2) /\
  length (fst (fst (forward_args demo_once_st2))) = num_unfinished demo_once_st2.
Proof.
  split; [split; [exact demo_once_shaped | exact demo_once_two_passes]|].
  exact (proj1 (X16_forward_slices_are_aligned demo_once 2 1 1 2 _ _
                  demo_once_shaped demo_once_two_passes)).
Defined.

Lemma X18_batch_is_copies_of_the_prompts_witness :
  exists st0 : @state Z Z,
    initial demo_two_by_two 0 (PromptList ["a"; "bb"]%string) 3 (Some (lcg_seed 7))
    = Ok (3 * 2, 1, st0) /\
    token_ids st0 = concat (replicate 3 [[1]; [2]]%Z).
Proof.
  destruct (X18_batch_is_copies_of_the_prompts demo_two_by_two 0
              (PromptList ["a"; "bb"]%string) 3 (Some (lcg_seed 7))
              [[1]; [2]]%Z [[1]; [1]]%Z 1 eq_refl
              ltac:(repeat constructor) ltac:(repeat constructor) eq_refl)
    as [st0 [Hi [Ht _]]].
  exists st0. split; [exact Hi | exact Ht].
Defined.
